(** * A shallow embedding of the GFS-style storage subsystem

    Source: [03-gfs/main.go].  The coordinator ("master"), the storage
    servers ("chunkservers") and the client are embedded as pure functions
    over explicit state.  What the Go program obtains from its environment
    (the clock, the outcome of a disk write, whether a peer can be reached)
    is an explicit argument of the embedded function.

    A handler is embedded as one state transformer: it takes its
    component's mutex before the first access to shared state and releases
    it on return.  The part on concurrent requests looks inside the
    storage server's handlers, statement by statement.

    The HTTP layer is Go's library: a request carries its method, its
    query parameters and its body.  The client pastes a file name into
    the URL as it is, and what the handler then finds in the query is
    modelled after [net/url] and [net/http] ([deliver]).  Server
    addresses and chunk handles, which the program builds itself
    ([localhost:<port>], [chunk_<n>]), arrive as they were sent.  JSON
    encoding followed by decoding is the identity on chunk records. *)

From Stdlib Require Import ZArith Lia Ascii String DecimalString DecimalZ DecimalPos.
From stdpp Require Import gmap strings list fin_maps.

Local Open Scope string_scope.
Local Open Scope list_scope.
Local Open Scope Z_scope.

(** ** Go's [int] and [fmt.Sprintf("%d")] *)

(** [int] is a 64-bit two's-complement integer on the platforms the demo
    scripts target; [++] wraps around silently. *)
Definition int_bits : Z := 64.
Definition int_modulus : Z := 2 ^ int_bits.
Definition int_min : Z := - 2 ^ (int_bits - 1).
Definition int_max : Z := 2 ^ (int_bits - 1) - 1.

Definition wrap_int (z : Z) : Z := (z - int_min) mod int_modulus + int_min.

Definition int_incr (z : Z) : Z := wrap_int (z + 1).

(** [fmt.Sprintf("%d", n)]: decimal digits, a leading minus sign for
    negative numbers. *)
Definition Sprintf_d (n : Z) : string := NilZero.string_of_int (Z.to_int n).

(** ** Shared data model *)

Definition ChunkSize : Z := 64 * 1024 * 1024.
Definition ReplicationFactor : nat := 3.

(** [time.Second], in the nanoseconds of [time.Duration]; instants are
    nanosecond counts as well. *)
Definition Second : Z := 1000000000.

Record Chunk := mkChunk {
  Handle : string;
  Servers : list string;
  Version : Z;
  Size : Z;
  Primary : string;
  LeaseEnd : Z
}.

(** The third field is [Size] in the source; it is renamed because [Chunk]
    already owns that projection. *)
Record FileInfo := mkFileInfo {
  Name : string;
  Chunks : list string;
  FileSize : Z
}.

(** ** HTTP vocabulary *)

Definition StatusOK : Z := 200.
Definition StatusBadRequest : Z := 400.
Definition StatusNotFound : Z := 404.
Definition StatusMethodNotAllowed : Z := 405.
Definition StatusConflict : Z := 409.
Definition StatusServiceUnavailable : Z := 503.

(** A request as the handlers see it: the method, the first value of every
    query parameter, and the body ([None] when reading it fails). *)
Record Request := mkRequest {
  Method : string;
  Query : gmap string string;
  Body : option string
}.

(** The requests a handler sees for
    [http.Post(".../route?key=value", _, body)] and
    [http.Get(".../route?key=value")] when the value is made of
    characters that a URL leaves alone ([url_safe] below; [deliver] tells
    what becomes of any other value).  The route selects the handler and
    is not part of the record. *)
Definition http_Post (key value body : string) : Request :=
  {| Method := "POST"; Query := {[ key := value ]}; Body := Some body |}.

Definition http_Get (key value : string) : Request :=
  {| Method := "GET"; Query := {[ key := value ]}; Body := Some "" |}.

(** [r.URL.Query().Get(key)]: the empty string when the key is absent. *)
Definition Query_Get (r : Request) (key : string) : string :=
  default "" (Query r !! key).

Record Response (B : Type) := mkResponse {
  StatusCode : Z;
  RespBody : B
}.
Arguments mkResponse {B} _ _.
Arguments StatusCode {B} _.
Arguments RespBody {B} _.

(** What the coordinator writes into a response: plain text, or the JSON
    encoding of a chunk record or of a slice of chunk pointers (a nil
    pointer encodes as [null], here [None]). *)
Inductive Payload :=
| Text (s : string)
| JSONChunk (c : Chunk)
| JSONChunks (cs : list (option Chunk)).

Definition newline : string := String "010"%char "".

(** [http.Error(w, msg, code)] sends [msg] followed by a newline. *)
Definition http_Error (msg : string) (code : Z) : string * Z :=
  (msg +:+ newline, code).

Definition text_Error (msg : string) (code : Z) : Response Payload :=
  mkResponse (http_Error msg code).2 (Text (http_Error msg code).1).

Definition raw_Error (msg : string) (code : Z) : Response string :=
  mkResponse (http_Error msg code).2 (http_Error msg code).1.

(** One constructor per [log.Printf] call site of the three components. *)
Inductive LogEntry :=
| LogRegistered (server : string)
| LogCreated (file : string)
| LogAllocated (handle file : string) (servers : list string)
| LogDiskWriteFailed (handle : string)
| LogStored (handle : string) (n : Z) (address : string)
| LogReplicaWriteFailed (server : string)
| LogWrote (file : string) (n : Z).

(** ** The coordinator *)

Module Master.

Record t := mk {
  files : gmap string FileInfo;
  chunks : gmap string Chunk;
  servers : list string;
  nextChunk : Z;
  port : Z
}.

Definition NewMaster (port : Z) : t :=
  {| files := ∅; chunks := ∅; servers := []; nextChunk := 1; port := port |}.

Definition set_files (fs : gmap string FileInfo) (m : t) : t :=
  {| files := fs; chunks := chunks m; servers := servers m;
     nextChunk := nextChunk m; port := port m |}.

Definition set_chunks (cs : gmap string Chunk) (m : t) : t :=
  {| files := files m; chunks := cs; servers := servers m;
     nextChunk := nextChunk m; port := port m |}.

Definition set_servers (ss : list string) (m : t) : t :=
  {| files := files m; chunks := chunks m; servers := ss;
     nextChunk := nextChunk m; port := port m |}.

Definition set_nextChunk (n : Z) (m : t) : t :=
  {| files := files m; chunks := chunks m; servers := servers m;
     nextChunk := n; port := port m |}.

Definition Result : Type := t * Response Payload * list LogEntry.

(** The scan of [handleRegisterServer]: is [server] already listed? *)
Fixpoint registered (server : string) (ss : list string) : bool :=
  match ss with
  | [] => false
  | s :: rest => if String.eqb s server then true else registered server rest
  end.

Definition handleRegisterServer (r : Request) (m : t) : Result :=
  if negb (String.eqb (Method r) "POST") then
    (m, text_Error "Method not allowed" StatusMethodNotAllowed, [])
  else
    let server := Query_Get r "server" in
    if String.eqb server "" then
      (m, text_Error "Server address required" StatusBadRequest, [])
    else if registered server (servers m) then
      (m, mkResponse StatusOK (Text ""), [])
    else
      (set_servers (servers m ++ [server]) m,
       mkResponse StatusOK (Text ""),
       [LogRegistered server]).

Definition handleCreateFile (r : Request) (m : t) : Result :=
  if negb (String.eqb (Method r) "POST") then
    (m, text_Error "Method not allowed" StatusMethodNotAllowed, [])
  else
    let filename := Query_Get r "file" in
    if String.eqb filename "" then
      (m, text_Error "Filename required" StatusBadRequest, [])
    else
      match files m !! filename with
      | Some _ => (m, text_Error "File already exists" StatusConflict, [])
      | None =>
          (set_files (<[filename := mkFileInfo filename [] 0]> (files m)) m,
           mkResponse StatusOK (Text ""),
           [LogCreated filename])
      end.

(** No method check here.  Entry [i] of the answer is [m.chunks] looked up
    at the file's [i]-th handle, a nil pointer when the table has none. *)
Definition handleGetChunks (r : Request) (m : t) : Result :=
  let filename := Query_Get r "file" in
  if String.eqb filename "" then
    (m, text_Error "Filename required" StatusBadRequest, [])
  else
    match files m !! filename with
    | None => (m, text_Error "File not found" StatusNotFound, [])
    | Some file =>
        (m,
         mkResponse StatusOK
           (JSONChunks (map (λ chunkHandle, chunks m !! chunkHandle) (Chunks file))),
         [])
    end.

(** The copy loop of [selectServers]: [selected[i] = m.servers[i]] for
    [i] from [0] while [i < count && i < len(m.servers)]. *)
Definition copyServers (ss : list string) (count : nat) : list string :=
  foldl (λ selected i, <[i := default "" (ss !! i)]> selected)
        (replicate count "")
        (seq 0 (Nat.min count (length ss))).

(** [count] is only ever [ReplicationFactor], so it is a natural number
    here. *)
Definition selectServers (m : t) (count : nat) : list string :=
  if (length (servers m) <? count)%nat then servers m
  else copyServers (servers m) count.

Definition chunkHandleOf (n : Z) : string := "chunk_" +:+ Sprintf_d n.

(** [now] is the value of [time.Now()] at the call.  The counter is bumped
    before the server check, and the early return leaves it bumped. *)
Definition handleAllocateChunk (r : Request) (now : Z) (m : t) : Result :=
  if negb (String.eqb (Method r) "POST") then
    (m, text_Error "Method not allowed" StatusMethodNotAllowed, [])
  else
    let filename := Query_Get r "file" in
    if String.eqb filename "" then
      (m, text_Error "Filename required" StatusBadRequest, [])
    else
      match files m !! filename with
      | None => (m, text_Error "File not found" StatusNotFound, [])
      | Some file =>
          let chunkHandle := chunkHandleOf (nextChunk m) in
          let m1 := set_nextChunk (int_incr (nextChunk m)) m in
          let selected := selectServers m1 ReplicationFactor in
          match selected with
          | [] =>
              (m1, text_Error "No available servers" StatusServiceUnavailable, [])
          | primary :: _ =>
              let chunk :=
                {| Handle := chunkHandle; Servers := selected; Version := 1;
                   Size := 0; Primary := primary;
                   LeaseEnd := now + 60 * Second |} in
              let file' :=
                {| Name := Name file; Chunks := Chunks file ++ [chunkHandle];
                   FileSize := FileSize file |} in
              (set_files (<[filename := file']> (files m1))
                 (set_chunks (<[chunkHandle := chunk]> (chunks m1)) m1),
               mkResponse StatusOK (JSONChunk chunk),
               [LogAllocated chunkHandle filename selected])
          end
      end.

(** The four routes of [Master.start]. *)
Inductive Op :=
| Register (r : Request)
| Create (r : Request)
| GetChunks (r : Request)
| Allocate (r : Request) (now : Z).

Definition step (op : Op) (m : t) : Result :=
  match op with
  | Register r => handleRegisterServer r m
  | Create r => handleCreateFile r m
  | GetChunks r => handleGetChunks r m
  | Allocate r now => handleAllocateChunk r now m
  end.

(** States the coordinator can be in: fresh, or one request later. *)
Inductive reachable : t → Prop :=
| reachable_new p : reachable (NewMaster p)
| reachable_step op m : reachable m → reachable (step op m).1.1.

(** [n] calls of [/allocate] with the same request, one after the other;
    [nows] lists the clock readings of the calls. *)
Fixpoint allocateMany (r : Request) (nows : list Z) (m : t)
  : t * list (Response Payload) :=
  match nows with
  | [] => (m, [])
  | now :: rest =>
      let '(m1, resp, _) := handleAllocateChunk r now m in
      let '(m2, resps) := allocateMany r rest m1 in
      (m2, resp :: resps)
  end.

End Master.


(** ** The storage server *)

Module Chunkserver.

Record t := mk {
  address : string;
  chunks : gmap string string;
  master : string;
  dataDir : string
}.

Definition set_chunks (cs : gmap string string) (s : t) : t :=
  {| address := address s; chunks := cs; master := master s;
     dataDir := dataDir s |}.

(** [strings.ReplaceAll(address, ":", "_")]. *)
Fixpoint replaceColons (s : string) : string :=
  match s with
  | EmptyString => EmptyString
  | String c rest =>
      String (if Ascii.eqb c ":"%char then "_"%char else c) (replaceColons rest)
  end.

(** The directory itself is created on the side; the files below it are
    the [disk] argument of the handlers. *)
Definition NewChunkserver (address master : string) : t :=
  {| address := address; chunks := ∅; master := master;
     dataDir := "chunkserver_" +:+ replaceColons address |}.

(** How [os.WriteFile] ends: it succeeds and the file holds the data, or
    it fails and leaves at the path whatever [residue] says (nothing, the old
    content, a truncated file). *)
Inductive WriteOutcome :=
| WriteOK
| WriteFailed (residue : option string).

Definition Result : Type :=
  t * gmap string string * Response string * list LogEntry.

Section Handlers.

(** [filepath.Join] of the Go library. *)
Variable filepath_Join : string → string → string.

(** [disk] maps a path to the content of the file there.  The in-memory
    assignment comes first and nothing after it can return early: a failed
    disk write is logged and the handler goes on to answer 200. *)
Definition handleWrite (r : Request) (outcome : WriteOutcome) (cs : t)
    (disk : gmap string string) : Result :=
  if negb (String.eqb (Method r) "POST") then
    (cs, disk, raw_Error "Method not allowed" StatusMethodNotAllowed, [])
  else
    let chunkHandle := Query_Get r "chunk" in
    if String.eqb chunkHandle "" then
      (cs, disk, raw_Error "Chunk handle required" StatusBadRequest, [])
    else
      match Body r with
      | None => (cs, disk, raw_Error "Failed to read data" StatusBadRequest, [])
      | Some data =>
          let cs' := set_chunks (<[chunkHandle := data]> (chunks cs)) cs in
          let chunkPath := filepath_Join (dataDir cs) chunkHandle in
          let stored :=
            LogStored chunkHandle (Z.of_nat (String.length data)) (address cs) in
          match outcome with
          | WriteOK =>
              (cs', <[chunkPath := data]> disk, mkResponse StatusOK "", [stored])
          | WriteFailed residue =>
              (cs',
               match residue with
               | Some partial => <[chunkPath := partial]> disk
               | None => delete chunkPath disk
               end,
               mkResponse StatusOK "",
               [LogDiskWriteFailed chunkHandle; stored])
          end
      end.

(** Memory first, then disk; a disk hit is cached.  [os.ReadFile] fails
    exactly when the disk has no file at the path. *)
Definition handleRead (r : Request) (cs : t) (disk : gmap string string)
  : Result :=
  let chunkHandle := Query_Get r "chunk" in
  if String.eqb chunkHandle "" then
    (cs, disk, raw_Error "Chunk handle required" StatusBadRequest, [])
  else
    match chunks cs !! chunkHandle with
    | Some data => (cs, disk, mkResponse StatusOK data, [])
    | None =>
        let chunkPath := filepath_Join (dataDir cs) chunkHandle in
        match disk !! chunkPath with
        | None => (cs, disk, raw_Error "Chunk not found" StatusNotFound, [])
        | Some diskData =>
            (set_chunks (<[chunkHandle := diskData]> (chunks cs)) cs, disk,
             mkResponse StatusOK diskData, [])
        end
    end.

End Handlers.

End Chunkserver.

(** ** Strings *)

(** Does the character occur in the string? *)
Fixpoint occurs (c : ascii) (s : string) : bool :=
  match s with
  | EmptyString => false
  | String a rest => Ascii.eqb a c || occurs c rest
  end.

(** [strings.Split(s, sep)] for a separator of one character: the pieces
    between the occurrences of the separator, [[s]] when there is none. *)
Fixpoint strings_Split (s : string) (sep : ascii) : list string :=
  match s with
  | EmptyString => [EmptyString]
  | String a rest =>
      let parts := strings_Split rest sep in
      if Ascii.eqb a sep then EmptyString :: parts
      else match parts with
           | p :: ps => String a p :: ps
           | [] => [String a EmptyString]
           end
  end.

(** [strings.Cut(s, sep)] for a separator of one character: the text
    before and after its first occurrence; all of [s] and the empty
    string when there is none. *)
Fixpoint strings_Cut (s : string) (sep : ascii) : string * string * bool :=
  match s with
  | EmptyString => (EmptyString, EmptyString, false)
  | String a rest =>
      if Ascii.eqb a sep then (EmptyString, rest, true)
      else
        let '(before, after, found) := strings_Cut rest sep in
        (String a before, after, found)
  end.

(** ** A parameter on its way through the URL

    The client builds every URL with [fmt.Sprintf(".../route?key=%s")]:
    the value is pasted into the text as it is, and the handler reads
    [r.URL.Query().Get(key)], the value decoded.  What lies between
    belongs to Go's [net/url] and [net/http]: [url.Parse] on the
    client, the request line on the wire, [url.ParseQuery] on the
    server.  The definitions below follow those three steps. *)

(** [url.Parse] refuses a URL with an ASCII control character. *)
Definition is_CTL (a : ascii) : bool :=
  let n := nat_of_ascii a in
  (n <? 32)%nat || (n =? 127)%nat.

Fixpoint stringContainsCTLByte (s : string) : bool :=
  match s with
  | EmptyString => false
  | String a rest => is_CTL a || stringContainsCTLByte rest
  end.

(** The value of a hexadecimal digit. *)
Definition unhex (a : ascii) : option nat :=
  let n := nat_of_ascii a in
  if (48 <=? n)%nat && (n <=? 57)%nat then Some (n - 48)%nat
  else if (97 <=? n)%nat && (n <=? 102)%nat then Some (n - 97 + 10)%nat
  else if (65 <=? n)%nat && (n <=? 70)%nat then Some (n - 65 + 10)%nat
  else None.

(** [url.QueryUnescape]: [%XX] becomes the byte [XX], [+] a space; a
    [%] that is not followed by two hexadecimal digits is an error. *)
Fixpoint QueryUnescape (s : string) : option string :=
  match s with
  | EmptyString => Some EmptyString
  | String a rest =>
      if Ascii.eqb a "%" then
        match rest with
        | String high (String low rest') =>
            match unhex high, unhex low, QueryUnescape rest' with
            | Some h, Some l, Some t =>
                Some (String (ascii_of_nat (16 * h + l)) t)
            | _, _, _ => None
            end
        | _ => None
        end
      else
        match QueryUnescape rest with
        | Some t => Some (String (if Ascii.eqb a "+" then " "%char else a) t)
        | None => None
        end
  end.

(** The fragment of a URL is unescaped by the same rule for [%]; only
    whether that fails matters to [url.Parse]. *)
Definition valid_escapes (s : string) : bool :=
  match QueryUnescape s with
  | Some _ => true
  | None => false
  end.

(** One [key=value] piece of a query string; [url.ParseQuery] skips a
    piece that holds a semicolon (since Go 1.17), is empty, or does not
    unescape. *)
Definition parse_pair (piece : string) : option (string * string) :=
  if occurs ";" piece then None
  else if String.eqb piece "" then None
  else
    let '(key, value, _) := strings_Cut piece "=" in
    match QueryUnescape key, QueryUnescape value with
    | Some key, Some value => Some (key, value)
    | _, _ => None
    end.

(** [url.ParseQuery], its error dropped as [URL.Query] drops it: the
    pairs of the pieces between [&], in order. *)
Definition ParseQuery (query : string) : list (string * string) :=
  omap parse_pair (strings_Split query "&").

(** What becomes of a request for [".../route?key=" + value]. *)
Inductive Delivery :=
| Unsendable
    (* url.Parse fails: http.Post and http.Get return an error and
       nothing is sent *)
| Malformed
    (* the request is sent, the server cannot parse its request line
       and answers 400 Bad Request without calling a handler *)
| Arrives (query : gmap string string)
    (* the handler runs and sees these parameters, the first value of
       each key *).

(** [url.Parse] cuts the fragment off at the first [#] and keeps the
    rest of the text after [?] as the raw query; the fragment is not
    sent.  The request line is [METHOD /route?rawquery HTTP/1.1], which
    the server splits at its first two spaces: a space in the raw query
    leaves it with a protocol version it cannot parse.  The key is one
    of the constants [file], [server] and [chunk]. *)
Definition deliver (key value : string) : Delivery :=
  let '(sent, fragment, _) := strings_Cut value "#" in
  if stringContainsCTLByte sent then Unsendable
  else if negb (valid_escapes fragment) then Unsendable
  else if occurs " " sent then Malformed
  else Arrives (list_to_map (ParseQuery (key +:+ "=" +:+ sent))).

(** The characters every step above leaves alone: letters, digits and
    [- . _ ~ /]. *)
Definition safe_char (a : ascii) : bool :=
  let n := nat_of_ascii a in
  (48 <=? n)%nat && (n <=? 57)%nat
  || (65 <=? n)%nat && (n <=? 90)%nat
  || (97 <=? n)%nat && (n <=? 122)%nat
  || Ascii.eqb a "-" || Ascii.eqb a "." || Ascii.eqb a "_"
  || Ascii.eqb a "~" || Ascii.eqb a "/".

Fixpoint url_safe (s : string) : bool :=
  match s with
  | EmptyString => true
  | String a rest => safe_char a && url_safe rest
  end.

(** ** The client and the processes it talks to *)

Module Client.

Record t := mk { master : string }.

Definition NewClient (master : string) : t := {| master := master |}.

(** A storage-server process with the files of its data directory. *)
Record Node := mkNode {
  server : Chunkserver.t;
  disk : gmap string string
}.

(** The coordinator and the storage servers, by address.  An address
    without a node has no listener: a call to it is a transport failure. *)
Record World := mkWorld {
  coordinator : Master.t;
  nodes : gmap string Node
}.

(** What one client operation meets: which peers answer, how each storage
    server's disk write ends, what the coordinator's clock shows. *)
Record Env := mkEnv {
  master_up : bool;
  server_up : string → bool;
  disk_write : string → Chunkserver.WriteOutcome;
  now : Z
}.

(** [TransportFailure] is the [err != nil] of [http.Post] and [http.Get]:
    the peer was not reached, or the URL was refused before anything was
    sent. *)
Inductive error :=
| TransportFailure (peer : string)
| DecodeFailure
| Errorf (msg : string).

Inductive Origin := AtMaster | AtServer (addr : string) | AtClient.

(** What an operation leaves behind besides the new state: the requests
    the client sent and the log lines of every process, in order. *)
Inductive Event :=
| Call (peer route : string)
| Log (who : Origin) (entry : LogEntry).

(** How a client function ends. *)
Inductive Outcome :=
| Returned (content : string) (err : option error)
| Panicked.

Section Operations.

Variable filepath_Join : string → string → string.

(** A request to the coordinator: [None] is the [err != nil] of
    [http.Post]/[http.Get]. *)
Definition call_master (env : Env) (c : t) (route : string)
    (handler : Master.t → Master.Result) (w : World)
  : World * option (Response Payload) * list Event :=
  if master_up env then
    let '(m', resp, logs) := handler (coordinator w) in
    ({| coordinator := m'; nodes := nodes w |}, Some resp,
     Call (master c) route :: map (Log AtMaster) logs)
  else (w, None, [Call (master c) route]).

(** A request to the storage server at [addr]. *)
Definition call_server (env : Env) (addr route : string)
    (handler : Chunkserver.t → gmap string string → Chunkserver.Result)
    (w : World)
  : World * option (Response string) * list Event :=
  if server_up env addr then
    match nodes w !! addr with
    | Some n =>
        let '(s', disk', resp, logs) := handler (server n) (disk n) in
        ({| coordinator := coordinator w;
            nodes := <[addr := {| server := s'; disk := disk' |}]> (nodes w) |},
         Some resp,
         Call addr route :: map (Log (AtServer addr)) logs)
    | None => (w, None, [Call addr route])
    end
  else (w, None, [Call addr route]).

(** A request to the coordinator whose URL carries [key=value] pasted in
    by [fmt.Sprintf]; the body is empty.  The answer of a server that
    could not parse the request line is Go's own, and the client looks
    at nothing but its status. *)
Definition ask_master (env : Env) (c : t) (method route key value : string)
    (handler : Request → Master.t → Master.Result) (w : World)
  : World * option (Response Payload) * list Event :=
  match deliver key value with
  | Unsendable => (w, None, [])
  | Malformed =>
      if master_up env then
        (w, Some (mkResponse StatusBadRequest (Text "400 Bad Request")),
         [Call (master c) route])
      else (w, None, [Call (master c) route])
  | Arrives query =>
      call_master env c route
        (handler {| Method := method; Query := query; Body := Some "" |}) w
  end.

(** [http.Post("http://<master>/create?file=<filename>", "", nil)]: the
    handler sees what the URL makes of the name. *)
Definition createFile (env : Env) (c : t) (filename : string) (w : World)
  : World * option error * list Event :=
  let '(w1, resp, evs) :=
    ask_master env c "POST" "/create" "file" filename
      Master.handleCreateFile w in
  match resp with
  | None => (w1, Some (TransportFailure (master c)), evs)
  | Some resp =>
      if negb (StatusCode resp =? StatusOK) then
        (w1,
         Some (Errorf ("create failed with status " +:+ Sprintf_d (StatusCode resp))),
         evs)
      else (w1, None, evs)
  end.

(** The loop over [chunk.Servers]: one POST per replica; a transport
    failure is logged and the loop continues; the answer's status is not
    looked at.  The handle in the URL is one the coordinator made,
    [chunk_<n>], which arrives as it is. *)
Fixpoint writeReplicas (env : Env) (handle data : string)
    (servers : list string) (w : World) : World * list Event :=
  match servers with
  | [] => (w, [])
  | server :: rest =>
      let '(w1, resp, evs) :=
        call_server env server "/write"
          (Chunkserver.handleWrite filepath_Join
             (http_Post "chunk" handle data) (disk_write env server)) w in
      let failed :=
        match resp with
        | None => [Log AtClient (LogReplicaWriteFailed server)]
        | Some _ => []
        end in
      let '(w2, more) := writeReplicas env handle data rest w1 in
      (w2, evs ++ failed ++ more)
  end.

(** The result of [createFile] is dropped; the allocation request
    carries the file name in its URL the same way. *)
Definition writeFile (env : Env) (c : t) (filename data : string) (w : World)
  : World * option error * list Event :=
  let '(w1, _, evs1) := createFile env c filename w in
  let '(w2, resp, evs2) :=
    ask_master env c "POST" "/allocate" "file" filename
      (λ r, Master.handleAllocateChunk r (now env)) w1 in
  match resp with
  | None => (w2, Some (TransportFailure (master c)), evs1 ++ evs2)
  | Some resp =>
      if negb (StatusCode resp =? StatusOK) then
        (w2,
         Some (Errorf ("chunk allocation failed with status "
                       +:+ Sprintf_d (StatusCode resp))),
         evs1 ++ evs2)
      else
        match RespBody resp with
        | JSONChunk chunk =>
            let '(w3, evs3) :=
              writeReplicas env (Handle chunk) data (Servers chunk) w2 in
            (w3, None,
             evs1 ++ evs2 ++ evs3
             ++ [Log AtClient
                   (LogWrote filename (Z.of_nat (String.length data)))])
        | _ => (w2, Some DecodeFailure, evs1 ++ evs2)
        end
  end.

(** Only the first chunk is read, from the first server of its replica
    list; the status of that answer is not looked at, its body is the
    content.  A [null] first entry is a nil-pointer dereference. *)
Definition readFile (env : Env) (c : t) (filename : string) (w : World)
  : World * Outcome * list Event :=
  let '(w1, resp, evs1) :=
    ask_master env c "GET" "/chunks" "file" filename
      Master.handleGetChunks w in
  match resp with
  | None => (w1, Returned "" (Some (TransportFailure (master c))), evs1)
  | Some resp =>
      if negb (StatusCode resp =? StatusOK) then
        (w1,
         Returned ""
           (Some (Errorf ("failed to get chunks with status "
                          +:+ Sprintf_d (StatusCode resp)))),
         evs1)
      else
        match RespBody resp with
        | JSONChunks [] => (w1, Returned "" None, evs1)
        | JSONChunks (None :: _) => (w1, Panicked, evs1)
        | JSONChunks (Some chunk :: _) =>
            match Servers chunk with
            | [] =>
                (w1, Returned "" (Some (Errorf "no servers available for chunk")),
                 evs1)
            | first :: _ =>
                let '(w2, readResp, evs2) :=
                  call_server env first "/read"
                    (Chunkserver.handleRead filepath_Join
                       (http_Get "chunk" (Handle chunk))) w1 in
                match readResp with
                | None =>
                    (w2, Returned "" (Some (TransportFailure first)),
                     evs1 ++ evs2)
                | Some readResp =>
                    (w2, Returned (RespBody readResp) None, evs1 ++ evs2)
                end
            end
        | _ => (w1, Returned "" (Some DecodeFailure), evs1)
        end
  end.

End Operations.

End Client.

(** ** Concurrent requests on one storage server

    The HTTP server runs every request on a goroutine of its own.  Here a
    request in progress is a program point of its handler, the handlers'
    statements on [cs.mu], [cs.chunks] and the data directory are the
    atomic steps, and any thread whose next step is enabled may take it.
    The steps before the lock (parsing the request) touch nothing shared
    and are left out: a thread starts at its [Lock] or [RLock].  The
    thread list holds every request of the run; one that arrives late
    takes its first step late.

    An access to the map [cs.chunks] is one step here.  Two retrieves
    can hold the read lock together, and the assignment
    [cs.chunks[chunkHandle] = diskData] of one then runs beside the map
    access of the other: Go's runtime may end the process there
    (concurrent map read and map write).  That fault is not a step of
    this model, which speaks of the mutex; [retrieves] counts the
    requests that can meet it. *)

Module Concurrent.

(** [sync.RWMutex]: one writer or any number of readers. *)
Record RWMutex := mkRWMutex {
  writer : bool;
  readers : nat
}.

Record Shared := mkShared {
  mu : RWMutex;
  server : Chunkserver.t;
  disk : gmap string string
}.

(** Program points of [handleWrite] and [handleRead], named by the
    statement that comes next. *)
Inductive pc :=
| WriteLock (handle data : string) (outcome : Chunkserver.WriteOutcome)
| WriteCache (handle data : string) (outcome : Chunkserver.WriteOutcome)
| WriteDisk (handle data : string) (outcome : Chunkserver.WriteOutcome)
| WriteUnlock (resp : Response string)
| ReadRLock (handle : string)
| ReadLookup (handle : string)
| ReadDisk (handle : string)
| ReadFill (handle diskData : string)
| ReadRUnlock (resp : Response string)
| Finished (resp : Response string).

(** Between [cs.mu.Lock()] and the deferred [cs.mu.Unlock()]. *)
Definition in_store_section (p : pc) : bool :=
  match p with
  | WriteCache _ _ _ | WriteDisk _ _ _ | WriteUnlock _ => true
  | _ => false
  end.

(** Between [cs.mu.RLock()] and the deferred [cs.mu.RUnlock()]. *)
Definition in_retrieve_section (p : pc) : bool :=
  match p with
  | ReadLookup _ | ReadDisk _ | ReadFill _ _ | ReadRUnlock _ => true
  | _ => false
  end.

Definition at_start (p : pc) : bool :=
  match p with
  | WriteLock _ _ _ | ReadRLock _ => true
  | _ => false
  end.

(** A retrieve that has not taken a step. *)
Definition is_retrieve (p : pc) : bool :=
  match p with
  | ReadRLock _ => true
  | _ => false
  end.

Section Steps.

Variable filepath_Join : string → string → string.

(** One statement of one thread; [None] when the thread is blocked on the
    mutex or has finished.  [Lock] waits for the writer and all readers to
    be gone, [RLock] for the writer only. *)
Definition thread_step (p : pc) (s : Shared) : option (pc * Shared) :=
  match p with
  | WriteLock h d o =>
      if writer (mu s) || negb (readers (mu s) =? 0)%nat then None
      else Some (WriteCache h d o,
                 mkShared (mkRWMutex true (readers (mu s))) (server s) (disk s))
  | WriteCache h d o =>
      Some (WriteDisk h d o,
            mkShared (mu s)
              (Chunkserver.set_chunks (<[h := d]> (Chunkserver.chunks (server s)))
                 (server s))
              (disk s))
  | WriteDisk h d o =>
      let chunkPath := filepath_Join (Chunkserver.dataDir (server s)) h in
      Some (WriteUnlock (mkResponse StatusOK ""),
            mkShared (mu s) (server s)
              match o with
              | Chunkserver.WriteOK => <[chunkPath := d]> (disk s)
              | Chunkserver.WriteFailed (Some partial) =>
                  <[chunkPath := partial]> (disk s)
              | Chunkserver.WriteFailed None => delete chunkPath (disk s)
              end)
  | WriteUnlock resp =>
      Some (Finished resp,
            mkShared (mkRWMutex false (readers (mu s))) (server s) (disk s))
  | ReadRLock h =>
      if writer (mu s) then None
      else Some (ReadLookup h,
                 mkShared (mkRWMutex false (S (readers (mu s)))) (server s) (disk s))
  | ReadLookup h =>
      match Chunkserver.chunks (server s) !! h with
      | Some data => Some (ReadRUnlock (mkResponse StatusOK data), s)
      | None => Some (ReadDisk h, s)
      end
  | ReadDisk h =>
      match disk s !! filepath_Join (Chunkserver.dataDir (server s)) h with
      | None => Some (ReadRUnlock (raw_Error "Chunk not found" StatusNotFound), s)
      | Some diskData => Some (ReadFill h diskData, s)
      end
  | ReadFill h diskData =>
      Some (ReadRUnlock (mkResponse StatusOK diskData),
            mkShared (mu s)
              (Chunkserver.set_chunks
                 (<[h := diskData]> (Chunkserver.chunks (server s))) (server s))
              (disk s))
  | ReadRUnlock resp =>
      Some (Finished resp,
            mkShared (mkRWMutex (writer (mu s)) (Nat.pred (readers (mu s))))
              (server s) (disk s))
  | Finished _ => None
  end.

(** The scheduler picks thread [i]. *)
Definition schedule (i : nat) (c : Shared * list pc) : option (Shared * list pc) :=
  match c.2 !! i with
  | None => None
  | Some p =>
      match thread_step p c.1 with
      | None => None
      | Some (p', s') => Some (s', <[i := p']> c.2)
      end
  end.

Inductive step : Shared * list pc → Shared * list pc → Prop :=
| step_thread i c c' : schedule i c = Some c' → step c c'.

(** The mutex is free and no request has taken a step. *)
Definition initial (c : Shared * list pc) : Prop :=
  mu c.1 = mkRWMutex false 0 ∧ Forall (λ p, at_start p = true) c.2.

Inductive reachable : Shared * list pc → Prop :=
| reachable_initial c : initial c → reachable c
| reachable_step c c' : reachable c → step c c' → reachable c'.

(** Runs: zero or more steps. *)
Definition runs_to : Shared * list pc → Shared * list pc → Prop := rtc step.

(** A thread running by itself, for at most [fuel] statements. *)
Fixpoint run_alone (fuel : nat) (p : pc) (s : Shared) : pc * Shared :=
  match fuel with
  | O => (p, s)
  | S fuel' =>
      match thread_step p s with
      | None => (p, s)
      | Some (p', s') => run_alone fuel' p' s'
      end
  end.

End Steps.

(** How many threads satisfy [f]. *)
Definition occupancy (f : pc → bool) (ts : list pc) : nat :=
  length (List.filter f ts).

(** The retrieves among the requests of a run that is about to start. *)
Definition retrieves (ts : list pc) : nat := occupancy is_retrieve ts.

(** The mutex records who is inside: the writer flag is set exactly when
    one thread is in a store section, no thread is in a retrieve section
    then, and the reader count is the number of threads in a retrieve
    section. *)
Definition lock_discipline (c : Shared * list pc) : Prop :=
  occupancy in_store_section c.2 = (if writer (mu c.1) then 1%nat else 0%nat) ∧
  occupancy in_retrieve_section c.2 = readers (mu c.1) ∧
  (writer (mu c.1) = true → readers (mu c.1) = 0%nat).

End Concurrent.

(** ** Predicates on coordinator states *)

(** Every handle in a file's chunk list has a record in the chunk table. *)
Definition handles_resolve (m : Master.t) : Prop :=
  ∀ filename file h,
    Master.files m !! filename = Some file →
    h ∈ Chunks file → is_Some (Master.chunks m !! h).

(** What the handlers maintain besides: no file and no server is named by
    the empty string, no server is listed twice, and the counter is an
    [int]. *)
Record well_formed (m : Master.t) : Prop := {
  wf_files : Master.files m !! "" = None;
  wf_servers : "" ∉ Master.servers m;
  wf_nodup : NoDup (Master.servers m);
  wf_counter : int_min ≤ Master.nextChunk m ≤ int_max
}.

(** The state and the record a successful allocation produces. *)
Definition allocated_chunk (m : Master.t) (now : Z) (primary : string) : Chunk :=
  {| Handle := Master.chunkHandleOf (Master.nextChunk m);
     Servers := take ReplicationFactor (Master.servers m);
     Version := 1; Size := 0; Primary := primary;
     LeaseEnd := now + 60 * Second |}.

Definition allocated_state (m : Master.t) (filename : string) (file : FileInfo)
    (c : Chunk) : Master.t :=
  {| Master.files :=
       <[filename := {| Name := Name file;
                        Chunks := Chunks file ++ [Handle c];
                        FileSize := FileSize file |}]> (Master.files m);
     Master.chunks := <[Handle c := c]> (Master.chunks m);
     Master.servers := Master.servers m;
     Master.nextChunk := int_incr (Master.nextChunk m);
     Master.port := Master.port m |}.

(** The answer of a successful [/allocate]. *)
Definition ok_chunk (c : Chunk) : Response Payload :=
  mkResponse StatusOK (JSONChunk c).

(** The records a run of successful allocations hands out, starting with
    the counter at [n]: consecutive handles, the same replica list, one
    lease per clock reading. *)
Fixpoint chunk_run (n : Z) (replicas : list string) (primary : string)
    (nows : list Z) : list Chunk :=
  match nows with
  | [] => []
  | now :: rest =>
      {| Handle := Master.chunkHandleOf n; Servers := replicas; Version := 1;
         Size := 0; Primary := primary; LeaseEnd := now + 60 * Second |}
      :: chunk_run (int_incr n) replicas primary rest
  end.

(** Recording a list of chunk records in the chunk table, in order. *)
Definition record_chunks (table : gmap string Chunk) (cs : list Chunk)
  : gmap string Chunk :=
  foldl (λ acc c, <[Handle c := c]> acc) table cs.

(** ** Predicates on client runs *)

(** Does a request to the storage server at [addr] get an answer? *)
Definition answers (env : Client.Env) (w : Client.World) (addr : string) : bool :=
  Client.server_up env addr && bool_decide (is_Some (Client.nodes w !! addr)).

(** What the client itself did: its requests and its own log lines. *)
Definition by_client (e : Client.Event) : bool :=
  match e with
  | Client.Call _ _ => true
  | Client.Log Client.AtClient _ => true
  | Client.Log _ _ => false
  end.

Definition client_trace (evs : list Client.Event) : list Client.Event :=
  List.filter by_client evs.

(** The client's side of a fan-out in which no replica is tried twice:
    one POST per entry of the replica list, in order, and one failure line
    right after each POST that got no answer. *)
Definition fanout_once (env : Client.Env) (w : Client.World)
    (servers : list string) : list Client.Event :=
  flat_map (λ s, Client.Call s "/write"
                 :: (if answers env w s then []
                     else [Client.Log Client.AtClient (LogReplicaWriteFailed s)]))
           servers.

(** The storage server at [addr] holds [data] for [handle] in memory. *)
Definition holds (w : Client.World) (addr handle data : string) : Prop :=
  ∃ n, Client.nodes w !! addr = Some n ∧
       Chunkserver.chunks (Client.server n) !! handle = Some data.

(** The file has no chunk yet: it is unknown, or known with an empty
    chunk list. *)
Definition chunkless (m : Master.t) (filename : string) : Prop :=
  match Master.files m !! filename with
  | None => True
  | Some file => Chunks file = []
  end.

(** ** The deployment of [demo.sh]

    A coordinator on port 8080 with three storage servers registered, on
    ports 8081 to 8083, all running, and a client. *)

Definition demo_join (dir name : string) : string := dir +:+ "/" +:+ name.

Definition demo_servers : list string :=
  ["localhost:8081"; "localhost:8082"; "localhost:8083"].

Definition demo_master : Master.t :=
  foldl (λ m addr, (Master.step (Master.Register (http_Post "server" addr "")) m).1.1)
        (Master.NewMaster 8080) demo_servers.

Definition demo_node (addr : string) : Client.Node :=
  {| Client.server := Chunkserver.NewChunkserver addr "localhost:8080";
     Client.disk := ∅ |}.

Definition demo_world : Client.World :=
  {| Client.coordinator := demo_master;
     Client.nodes := list_to_map (map (λ addr, (addr, demo_node addr)) demo_servers) |}.

Definition demo_client : Client.t := Client.NewClient "localhost:8080".

(** Every peer answers and every disk write succeeds. *)
Definition demo_env : Client.Env :=
  {| Client.master_up := true; Client.server_up := λ _, true;
     Client.disk_write := λ _, Chunkserver.WriteOK; Client.now := 0 |}.

(** Only the first storage server answers. *)
Definition degraded_env : Client.Env :=
  {| Client.master_up := true;
     Client.server_up := λ addr, String.eqb addr "localhost:8081";
     Client.disk_write := λ _, Chunkserver.WriteOK; Client.now := 0 |}.

(** ** Runs of the coordinator *)

(** The state after a sequence of requests. *)
Definition run_ops (ops : list Master.Op) (m : Master.t) : Master.t :=
  foldl (λ m op, (Master.step op m).1.1) m ops.

(** The five things a request can do to the coordinator's state: nothing,
    list one more server, add one empty file record, burn a handle number,
    or allocate a chunk. *)
Inductive transition (m : Master.t) : Master.t → Prop :=
| transition_none : transition m m
| transition_register server :
    server ≠ "" → server ∉ Master.servers m →
    transition m (Master.set_servers (Master.servers m ++ [server]) m)
| transition_create filename :
    filename ≠ "" → Master.files m !! filename = None →
    transition m
      (Master.set_files
         (<[filename := mkFileInfo filename [] 0]> (Master.files m)) m)
| transition_burn filename file :
    filename ≠ "" → Master.files m !! filename = Some file →
    Master.servers m = [] →
    transition m (Master.set_nextChunk (int_incr (Master.nextChunk m)) m)
| transition_allocate filename file now primary rest :
    filename ≠ "" → Master.files m !! filename = Some file →
    Master.servers m = primary :: rest →
    transition m
      (allocated_state m filename file (allocated_chunk m now primary)).

(** What every chunk record of the table looks like. *)
Record chunk_record_ok (m : Master.t) (h : string) (c : Chunk) : Prop := {
  cr_handle : Handle c = h;
  cr_nonempty : Servers c ≠ [];
  cr_primary : head (Servers c) = Some (Primary c);
  cr_length : (length (Servers c) ≤ ReplicationFactor)%nat;
  cr_registered : Servers c `prefix_of` Master.servers m;
  cr_version : Version c = 1;
  cr_size : Size c = 0
}.

(** What every file record looks like. *)
Record file_record_ok (filename : string) (file : FileInfo) : Prop := {
  fr_name : Name file = filename;
  fr_named : filename ≠ "";
  fr_size : FileSize file = 0
}.

(** The counter has not wrapped around: it is positive, and the table
    holds records only for handle numbers the counter has passed. *)
Definition young (m : Master.t) : Prop :=
  1 ≤ Master.nextChunk m ≤ int_max ∧
  ∀ h, is_Some (Master.chunks m !! h) →
       ∃ k, 1 ≤ k < Master.nextChunk m ∧ h = Master.chunkHandleOf k.

(** No handle is listed twice, be it in one file or in two. *)
Definition handles_owned_once (m : Master.t) : Prop :=
  ∀ f1 file1 f2 file2 (i j : nat) h,
    Master.files m !! f1 = Some file1 → Master.files m !! f2 = Some file2 →
    Chunks file1 !! i = Some h → Chunks file2 !! j = Some h →
    f1 = f2 ∧ i = j.

(** ** Starting a storage server *)

Module Startup.

(** The log lines of [registerWithMaster] and [start]. *)
Inductive StartLog :=
| LogRegisteredWithMaster (master : string)
| LogRegisterFailed (attempt : Z) (err : Client.error)
| LogStarting (address : string).

(** [up] tells whether the POST reaches the coordinator.  The
    coordinator's own log line stays with the coordinator and is not
    returned. *)
Definition registerWithMaster (up : bool) (cs : Chunkserver.t) (m : Master.t)
  : Master.t * option Client.error * list StartLog :=
  if up then
    let '(m', resp, _) :=
      Master.handleRegisterServer
        (http_Post "server" (Chunkserver.address cs) "") m in
    if negb (StatusCode resp =? StatusOK) then
      (m',
       Some (Client.Errorf ("registration failed with status "
                            +:+ Sprintf_d (StatusCode resp))),
       [])
    else (m', None, [LogRegisteredWithMaster (Chunkserver.master cs)])
  else (m, Some (Client.TransportFailure (Chunkserver.master cs)), []).

(** The loop [for i := 0; i < 5; i++]: [fuel] is the number of rounds
    left, [ups i] the reachability of the coordinator in round [i].  The
    second component is the time spent in [time.Sleep]. *)
Fixpoint registerLoop (fuel : nat) (i : Z) (ups : Z → bool)
    (cs : Chunkserver.t) (m : Master.t) : Master.t * Z * list StartLog :=
  match fuel with
  | O => (m, 0, [])
  | S fuel' =>
      let '(m', err, logs) := registerWithMaster (ups i) cs m in
      match err with
      | Some e =>
          let '(m'', slept, more) := registerLoop fuel' (i + 1) ups cs m' in
          (m'', 2 * Second + slept, logs ++ LogRegisterFailed (i + 1) e :: more)
      | None => (m', 0, logs)
      end
  end.

(** Where [start] ends up: at the call [http.ListenAndServe(on, nil)],
    or in the panic of [strings.Split(cs.address, ":")[1]] on an address
    without a colon.  What becomes of the call is [listenAndServe]
    below. *)
Inductive StartOutcome :=
| Listening (on : string)
| StartPanicked.

Definition start (ups : Z → bool) (cs : Chunkserver.t) (m : Master.t)
  : Master.t * Z * StartOutcome * list StartLog :=
  let '(m', slept, logs) := registerLoop 5 0 ups cs m in
  match strings_Split (Chunkserver.address cs) ":"%char !! 1%nat with
  | None => (m', slept, StartPanicked, logs)
  | Some port =>
      (m', slept, Listening (":" +:+ port),
       logs ++ [LogStarting (Chunkserver.address cs)])
  end.

(** How the process goes on after [start]. *)
Inductive ServeOutcome :=
| Serving (on : string)
| FatalExit
| Crashed.

(** [log.Fatal(http.ListenAndServe(on, nil))]: the call serves for as
    long as the process lives when the address can be bound, and returns
    an error at once when it cannot (a port in use, a number that is no
    port); [log.Fatal] then ends the process.  [binds] tells which
    addresses can be bound. *)
Definition listenAndServe (binds : string → bool) (o : StartOutcome)
  : ServeOutcome :=
  match o with
  | Listening on => if binds on then Serving on else FatalExit
  | StartPanicked => Crashed
  end.

End Startup.

(** ** The command line *)

Module Main.

Record Flags := mkFlags {
  mode : string;
  port : Z;
  master : string;
  operation : string;
  file : string;
  data : string
}.

(** The defaults of the [flag] declarations. *)
Definition defaults : Flags :=
  {| mode := "master"; port := 8080; master := "localhost:8080";
     operation := "read"; file := ""; data := "" |}.

(** What [main] does: it hands over to a server that runs until killed,
    prints a line and returns, or dies in [log.Fatal]. *)
Inductive Outcome :=
| RunsMaster (m : Master.t)
| RunsChunkserver (cs : Chunkserver.t)
| Printed (line : string)
| Fatal (msg : string)
| FatalError (msg : string) (err : Client.error)
| Crashed.

Section Run.

Variable filepath_Join : string → string → string.

Definition main (flags : Flags) (env : Client.Env) (w : Client.World)
  : Client.World * Outcome * list Client.Event :=
  if String.eqb (mode flags) "master" then
    (w, RunsMaster (Master.NewMaster (port flags)), [])
  else if String.eqb (mode flags) "chunkserver" then
    (w,
     RunsChunkserver
       (Chunkserver.NewChunkserver ("localhost:" +:+ Sprintf_d (port flags))
          (master flags)),
     [])
  else if String.eqb (mode flags) "client" then
    let client := Client.NewClient (master flags) in
    if String.eqb (operation flags) "write" then
      if String.eqb (file flags) "" || String.eqb (data flags) "" then
        (w, Fatal "File and data required for write operation", [])
      else
        let '(w', err, evs) :=
          Client.writeFile filepath_Join env client (file flags) (data flags) w in
        match err with
        | Some e => (w', FatalError "Write failed" e, evs)
        | None =>
            (w', Printed ("Successfully wrote to " +:+ file flags +:+ newline),
             evs)
        end
    else if String.eqb (operation flags) "read" then
      if String.eqb (file flags) "" then
        (w, Fatal "File required for read operation", [])
      else
        let '(w', out, evs) :=
          Client.readFile filepath_Join env client (file flags) w in
        match out with
        | Client.Panicked => (w', Crashed, evs)
        | Client.Returned _ (Some e) => (w', FatalError "Read failed" e, evs)
        | Client.Returned content None =>
            (w',
             Printed ("Content of " +:+ file flags +:+ ": " +:+ content
                      +:+ newline),
             evs)
        end
    else (w, Fatal "Unknown operation. Use 'read' or 'write'", [])
  else (w, Fatal "Unknown mode. Use 'master', 'chunkserver', or 'client'", []).

End Run.

End Main.

(** The log of [n] rounds, from round [i] on, in which the coordinator
    could not be reached. *)
Definition failed_rounds (master : string) (i : Z) (n : nat)
  : list Startup.StartLog :=
  map (λ j : nat, Startup.LogRegisterFailed (i + Z.of_nat j + 1)
                    (Client.TransportFailure master))
      (seq 0 n).

(** ** More predicates on client runs *)

(** What [readFile] needs to return [d] for [p]: the file's first handle
    is [h], [h] has a record filed under it, and the first server [s] of
    that record holds [d] for it. *)
Definition readable_at (w : Client.World) (p h s d : string) : Prop :=
  h ≠ "" ∧
  (∃ file rest,
     Master.files (Client.coordinator w) !! p = Some file ∧
     Chunks file = h :: rest) ∧
  (∃ c more,
     Master.chunks (Client.coordinator w) !! h = Some c ∧
     Handle c = h ∧ Servers c = s :: more) ∧
  holds w s h d.

(** The coordinator after the [/create] of a write. *)
Definition created (m : Master.t) (filename : string) : Master.t :=
  match Master.files m !! filename with
  | Some _ => m
  | None =>
      Master.set_files
        (<[filename := mkFileInfo filename [] 0]> (Master.files m)) m
  end.

(** The record the [/allocate] of a write appends to. *)
Definition record_of (m : Master.t) (filename : string) : FileInfo :=
  default (mkFileInfo filename [] 0) (Master.files m !! filename).

Section WriteMany.

Variable filepath_Join : string → string → string.


End WriteMany.

(** Has the request been answered? *)
Definition finished (p : Concurrent.pc) : bool :=
  match p with
  | Concurrent.Finished _ => true
  | _ => false
  end.
(** ** Facts about integers and handles *)

Lemma int_modulus_eq : int_modulus = 18446744073709551616.
Proof. reflexivity. Qed.

Lemma int_min_eq : int_min = -9223372036854775808.
Proof. reflexivity. Qed.

Lemma int_max_eq : int_max = 9223372036854775807.
Proof. reflexivity. Qed.

Lemma wrap_int_range z : int_min ≤ wrap_int z ≤ int_max.
Proof.
  unfold wrap_int, int_max. rewrite int_min_eq.
  pose proof (Z.mod_pos_bound (z - -9223372036854775808) int_modulus).
  rewrite int_modulus_eq in *. change (2 ^ (int_bits - 1)) with 9223372036854775808.
  lia.
Qed.

Lemma wrap_int_id z : int_min ≤ z ≤ int_max → wrap_int z = z.
Proof.
  unfold wrap_int, int_max. rewrite int_min_eq, int_modulus_eq.
  change (2 ^ (int_bits - 1)) with 9223372036854775808. intros Hz.
  rewrite Z.mod_small; lia.
Qed.

Lemma wrap_int_add_l a b : wrap_int (wrap_int a + b) = wrap_int (a + b).
Proof.
  unfold wrap_int. f_equal.
  replace ((a - int_min) mod int_modulus + int_min + b - int_min)
    with ((a - int_min) mod int_modulus + b) by lia.
  replace (a + b - int_min) with ((a - int_min) + b) by lia.
  rewrite Zplus_mod_idemp_l. reflexivity.
Qed.

(** Two wrapped values agree exactly when the originals differ by a
    multiple of the modulus. *)
Lemma wrap_int_eq_close a b :
  wrap_int a = wrap_int b → Z.abs (a - b) < int_modulus → a = b.
Proof.
  unfold wrap_int. rewrite int_min_eq, int_modulus_eq. intros Heq Hab.
  assert (Hm : (a - -9223372036854775808) mod 18446744073709551616
             = (b - -9223372036854775808) mod 18446744073709551616) by lia.
  pose proof (Z.div_mod (a - -9223372036854775808) 18446744073709551616).
  pose proof (Z.div_mod (b - -9223372036854775808) 18446744073709551616).
  lia.
Qed.

Lemma Sprintf_d_inj a b : Sprintf_d a = Sprintf_d b → a = b.
Proof.
  unfold Sprintf_d. intros Heq.
  apply DecimalZ.to_int_inj.
  assert (Hok : ∀ z, NilZero.int_of_string (NilZero.string_of_int (Z.to_int z))
                     = Some (Z.to_int z)).
  { intros z. apply NilZero.isi; destruct z; simpl; try discriminate;
      intros [= H]; by apply Unsigned.to_uint_nonnil in H. }
  pose proof (Hok a) as Ha. rewrite Heq, Hok in Ha. congruence.
Qed.

Lemma chunkHandleOf_inj a b :
  Master.chunkHandleOf a = Master.chunkHandleOf b → a = b.
Proof.
  unfold Master.chunkHandleOf. simpl. intros [= H]. by apply Sprintf_d_inj.
Qed.

Lemma chunkHandleOf_nonempty n : Master.chunkHandleOf n ≠ "".
Proof. discriminate. Qed.

(** ** Facts about requests *)

Lemma Query_Get_post key value body :
  Query_Get (http_Post key value body) key = value.
Proof. unfold Query_Get, http_Post. simpl. by rewrite lookup_singleton_eq. Qed.

Lemma Query_Get_get key value : Query_Get (http_Get key value) key = value.
Proof. unfold Query_Get, http_Get. simpl. by rewrite lookup_singleton_eq. Qed.

Lemma eqb_empty_false (s : string) : s ≠ "" → String.eqb s "" = false.
Proof. intros H. by apply String.eqb_neq. Qed.

(** ** Facts about URLs *)

Lemma safe_char_plain a :
  safe_char a = true →
  is_CTL a = false ∧ Ascii.eqb a "%" = false ∧ Ascii.eqb a "+" = false.
Proof.
  destruct a as [b0 b1 b2 b3 b4 b5 b6 b7].
  destruct b0, b1, b2, b3, b4, b5, b6, b7; vm_compute;
    (discriminate || (intros _; repeat split)).
Qed.

Lemma occurs_app c s t : occurs c (s +:+ t) = occurs c s || occurs c t.
Proof.
  induction s as [|a s IH]; simpl; [done|].
  by rewrite IH, orb_assoc.
Qed.

Lemma url_safe_occurs c s :
  safe_char c = false → url_safe s = true → occurs c s = false.
Proof.
  intros Hc. induction s as [|a s IH]; simpl; [done|].
  intros [Ha Hs]%andb_prop. rewrite (IH Hs), orb_false_r.
  destruct (Ascii.eqb_spec a c) as [->|]; [congruence|done].
Qed.

Lemma url_safe_no_CTL s : url_safe s = true → stringContainsCTLByte s = false.
Proof.
  induction s as [|a s IH]; simpl; [done|].
  intros [Ha Hs]%andb_prop.
  destruct (safe_char_plain a Ha) as (-> & _). by rewrite (IH Hs).
Qed.

Lemma QueryUnescape_safe s : url_safe s = true → QueryUnescape s = Some s.
Proof.
  induction s as [|a s IH]; [done|].
  intros [Ha Hs]%andb_prop.
  destruct (safe_char_plain a Ha) as (_ & Hpercent & Hplus).
  cbn [QueryUnescape]. by rewrite Hpercent, (IH Hs), Hplus.
Qed.

Lemma strings_Cut_absent s sep :
  occurs sep s = false → strings_Cut s sep = (s, "", false).
Proof.
  induction s as [|a s IH]; simpl; [done|].
  intros [Ha Hs]%orb_false_elim. by rewrite Ha, (IH Hs).
Qed.

Lemma strings_Cut_app s sep t :
  occurs sep s = false → strings_Cut (s +:+ String sep t) sep = (s, t, true).
Proof.
  induction s as [|a s IH]; simpl.
  - intros _. by rewrite Ascii.eqb_refl.
  - intros [Ha Hs]%orb_false_elim. by rewrite Ha, (IH Hs).
Qed.

Lemma strings_Split_absent s sep :
  occurs sep s = false → strings_Split s sep = [s].
Proof.
  induction s as [|a s IH]; simpl; [done|].
  intros [Ha Hs]%orb_false_elim. by rewrite Ha, (IH Hs).
Qed.

(** A name of safe characters reaches the handler as it was given. *)
Lemma deliver_safe key value :
  url_safe key = true → url_safe value = true →
  deliver key value = Arrives {[ key := value ]}.
Proof.
  intros Hkey Hvalue. unfold deliver.
  rewrite (strings_Cut_absent value "#") by (by apply url_safe_occurs).
  rewrite (url_safe_no_CTL _ Hvalue).
  change (valid_escapes "") with true. cbn [negb].
  rewrite (url_safe_occurs " " value) by done.
  f_equal. unfold ParseQuery.
  rewrite strings_Split_absent.
  2:{ rewrite occurs_app. simpl.
      rewrite !url_safe_occurs by done. reflexivity. }
  cbn [omap list_omap]. unfold parse_pair.
  assert (occurs ";" (key +:+ "=" +:+ value) = false) as ->.
  { rewrite occurs_app. simpl.
    rewrite !url_safe_occurs by done. reflexivity. }
  assert (String.eqb (key +:+ "=" +:+ value) "" = false) as ->.
  { by destruct key. }
  change (key +:+ "=" +:+ value) with (key +:+ String "=" value).
  rewrite strings_Cut_app by (by apply url_safe_occurs).
  rewrite !QueryUnescape_safe by done.
  cbn [list_to_map foldr uncurry fst snd]. apply insert_empty.
Qed.

(** ** Facts about the coordinator's helpers *)

Lemma registered_elem server ss : Master.registered server ss = true ↔ server ∈ ss.
Proof.
  induction ss as [|s rest IH]; simpl.
  - split; [discriminate | by intros ?%elem_of_nil].
  - destruct (String.eqb_spec s server) as [->|Hne].
    + split; [intros _; left | done].
    + rewrite IH. split; [by right | by intros [?|?]%elem_of_cons].
Qed.

Lemma registered_app_self server ss :
  Master.registered server (ss ++ [server]) = true.
Proof. apply registered_elem. set_solver. Qed.

Lemma copyServers_prefix (ss : list string) (count k : nat) :
  (k ≤ count)%nat → (k ≤ length ss)%nat →
  foldl (λ selected i, <[i := default "" (ss !! i)]> selected)
        (replicate count "") (seq 0 k)
  = take k ss ++ replicate (count - k) "".
Proof.
  induction k as [|k IH]; intros Hc Hl.
  - simpl. by rewrite Nat.sub_0_r.
  - rewrite seq_S, foldl_app. simpl. rewrite IH by lia.
    destruct (lookup_lt_is_Some_2 ss k) as [x Hx]; [lia|].
    rewrite Hx. simpl.
    rewrite (take_S_r _ _ x) by done.
    replace (count - k)%nat with (S (count - S k)) by lia. simpl.
    rewrite <- (Nat.add_0_r k) at 1.
    replace k with (length (take k ss)) at 1 by (rewrite length_take; lia).
    rewrite insert_app_r. simpl. by rewrite <- app_assoc.
Qed.

Lemma copyServers_take (ss : list string) (count : nat) :
  (count ≤ length ss)%nat → Master.copyServers ss count = take count ss.
Proof.
  intros H. unfold Master.copyServers.
  rewrite Nat.min_l by done. rewrite copyServers_prefix by lia.
  rewrite Nat.sub_diag. simpl. by rewrite app_nil_r.
Qed.

(** [selectServers] is the prefix of the registration list. *)
Lemma selectServers_take m count :
  Master.selectServers m count = take count (Master.servers m).
Proof.
  unfold Master.selectServers.
  destruct (Nat.ltb_spec (length (Master.servers m)) count).
  - by rewrite take_ge by lia.
  - by apply copyServers_take.
Qed.

Lemma selectServers_length m count :
  length (Master.selectServers m count)
  = Nat.min count (length (Master.servers m)).
Proof. by rewrite selectServers_take, length_take. Qed.

Lemma selectServers_nil m count :
  count ≠ 0%nat → Master.selectServers m count = [] ↔ Master.servers m = [].
Proof.
  intros Hc. rewrite selectServers_take. destruct (Master.servers m), count; naive_solver.
Qed.

(** ** Running the coordinator's handlers on well-formed requests *)

Ltac run_handler :=
  repeat first
    [ progress simpl Method
    | rewrite Query_Get_post
    | rewrite Query_Get_get
    | rewrite eqb_empty_false by done
    | progress simpl negb
    | progress cbv iota ].

Lemma register_post server m :
  server ≠ "" →
  Master.handleRegisterServer (http_Post "server" server "") m
  = if Master.registered server (Master.servers m)
    then (m, mkResponse StatusOK (Text ""), [])
    else (Master.set_servers (Master.servers m ++ [server]) m,
          mkResponse StatusOK (Text ""), [LogRegistered server]).
Proof. intros Hs. unfold Master.handleRegisterServer. by run_handler. Qed.

Lemma create_post filename m :
  filename ≠ "" →
  Master.handleCreateFile (http_Post "file" filename "") m
  = match Master.files m !! filename with
    | Some _ => (m, text_Error "File already exists" StatusConflict, [])
    | None =>
        (Master.set_files
           (<[filename := mkFileInfo filename [] 0]> (Master.files m)) m,
         mkResponse StatusOK (Text ""), [LogCreated filename])
    end.
Proof. intros Hs. unfold Master.handleCreateFile. by run_handler. Qed.

Lemma getChunks_get filename file m :
  filename ≠ "" → Master.files m !! filename = Some file →
  Master.handleGetChunks (http_Get "file" filename) m
  = (m, mkResponse StatusOK
          (JSONChunks (map (λ h, Master.chunks m !! h) (Chunks file))), []).
Proof.
  intros Hs Hf. unfold Master.handleGetChunks. run_handler. by rewrite Hf.
Qed.

Lemma allocate_post_empty filename file now m :
  filename ≠ "" → Master.files m !! filename = Some file →
  Master.servers m = [] →
  Master.handleAllocateChunk (http_Post "file" filename "") now m
  = (Master.set_nextChunk (int_incr (Master.nextChunk m)) m,
     text_Error "No available servers" StatusServiceUnavailable, []).
Proof.
  intros Hs Hf Hnil. unfold Master.handleAllocateChunk. run_handler.
  rewrite Hf. rewrite selectServers_take. simpl Master.servers.
  by rewrite Hnil.
Qed.

Lemma allocate_post_ok filename file now m primary rest :
  filename ≠ "" → Master.files m !! filename = Some file →
  Master.servers m = primary :: rest →
  Master.handleAllocateChunk (http_Post "file" filename "") now m
  = (allocated_state m filename file (allocated_chunk m now primary),
     mkResponse StatusOK (JSONChunk (allocated_chunk m now primary)),
     [LogAllocated (Master.chunkHandleOf (Master.nextChunk m)) filename
        (take ReplicationFactor (Master.servers m))]).
Proof.
  intros Hs Hf Hsrv. unfold Master.handleAllocateChunk. run_handler.
  rewrite Hf. rewrite selectServers_take. simpl Master.servers.
  unfold allocated_state, allocated_chunk, Master.set_files,
    Master.set_chunks, Master.set_nextChunk. simpl.
  rewrite Hsrv. reflexivity.
Qed.

(** ** What every handler maintains *)

Lemma well_formed_new p : well_formed (Master.NewMaster p).
Proof.
  split; simpl; [done | by intros ?%elem_of_nil | constructor |].
  rewrite int_min_eq, int_max_eq. lia.
Qed.

Lemma step_well_formed op m :
  well_formed m → well_formed (Master.step op m).1.1.
Proof.
  intros [Hf Hs Hd Hc]. destruct op as [r|r|r|r now]; simpl.
  - unfold Master.handleRegisterServer.
    destruct (negb _); [done|].
    destruct (String.eqb_spec (Query_Get r "server") "") as [|Hne]; [done|].
    destruct (Master.registered _ _) eqn:Hreg; [done|].
    split; simpl; try done.
    + rewrite elem_of_app, list_elem_of_singleton.
      intros [?|?]; [done | congruence].
    + apply NoDup_app. split_and!; [done | | apply NoDup_singleton].
      intros x Hx Hx'. apply list_elem_of_singleton in Hx'. subst x.
      apply registered_elem in Hx. congruence.
  - unfold Master.handleCreateFile.
    destruct (negb _); [done|].
    destruct (String.eqb_spec (Query_Get r "file") "") as [|Hne]; [done|].
    destruct (Master.files m !! Query_Get r "file"); [done|].
    split; simpl; try done. by rewrite lookup_insert_ne.
  - unfold Master.handleGetChunks.
    destruct (String.eqb _ _); [done|].
    by destruct (Master.files m !! Query_Get r "file").
  - unfold Master.handleAllocateChunk.
    destruct (negb _); [done|].
    destruct (String.eqb_spec (Query_Get r "file") "") as [|Hne]; [done|].
    destruct (Master.files m !! Query_Get r "file"); [|done].
    destruct (Master.selectServers _ _); split; simpl; try done;
      try apply wrap_int_range.
    by rewrite lookup_insert_ne.
Qed.

Lemma reachable_well_formed m : Master.reachable m → well_formed m.
Proof.
  induction 1; [apply well_formed_new | by apply step_well_formed].
Qed.

Lemma handles_resolve_new p : handles_resolve (Master.NewMaster p).
Proof. intros f file h Hf. simpl in Hf. by rewrite lookup_empty in Hf. Qed.

(** Preservation needs no assumption on the request or on the rest of the
    state. *)
Lemma step_handles_resolve op m :
  handles_resolve m → handles_resolve (Master.step op m).1.1.
Proof.
  intros Hinv. destruct op as [r|r|r|r now]; simpl.
  - unfold Master.handleRegisterServer.
    destruct (negb _); [done|]. destruct (String.eqb _ _); [done|].
    by destruct (Master.registered _ _).
  - unfold Master.handleCreateFile.
    destruct (negb _); [done|]. destruct (String.eqb _ _); [done|].
    destruct (Master.files m !! _) eqn:Hlook; [done|].
    intros f file h. simpl. rewrite lookup_insert.
    case_decide; [|by apply Hinv].
    intros [= <-]. simpl. by intros ?%elem_of_nil.
  - unfold Master.handleGetChunks.
    destruct (String.eqb _ _); [done|]. by destruct (Master.files m !! _).
  - unfold Master.handleAllocateChunk.
    destruct (negb _); [done|]. destruct (String.eqb _ _); [done|].
    destruct (Master.files m !! Query_Get r "file") as [file0|] eqn:Hlook; [|done].
    destruct (Master.selectServers _ _) as [|primary rest]; [done|].
    intros f file h. simpl. rewrite lookup_insert.
    case_decide as Hk.
    + intros [= <-]. simpl. rewrite elem_of_app, list_elem_of_singleton.
      intros [Hold| ->].
      * destruct (Hinv _ _ _ Hlook Hold) as [c Hc].
        rewrite lookup_insert. case_decide; eauto.
      * rewrite lookup_insert_eq. eauto.
    + intros Hf Hh. destruct (Hinv _ _ _ Hf Hh) as [c Hc].
      rewrite lookup_insert. case_decide; eauto.
Qed.

(** ** The coordinator's invariant *)

(** C8.  In every state the coordinator can reach, each chunk handle listed
    in a file record has a chunk record in the chunk table.  The fresh
    coordinator satisfies this, and each of the four operations
    (register, create, get-chunks, allocate) preserves it whatever the
    request is; so it holds after any sequence of operations. *)
Theorem chunk_handles_resolve :
  (∀ p, handles_resolve (Master.NewMaster p)) ∧
  (∀ op m, handles_resolve m → handles_resolve (Master.step op m).1.1) ∧
  (∀ m, Master.reachable m → handles_resolve m).
Proof.
  split_and!.
  - apply handles_resolve_new.
  - apply step_handles_resolve.
  - induction 1; [apply handles_resolve_new | by apply step_handles_resolve].
Qed.

(** A run of the coordinator: a server registers, a file is created, a
    chunk is allocated for it. *)
Lemma chunk_handles_resolve_witness :
  handles_resolve
    (Master.step (Master.Allocate (http_Post "file" "/hello.txt" "") 0)
       (Master.step (Master.Create (http_Post "file" "/hello.txt" ""))
          (Master.step (Master.Register (http_Post "server" "localhost:8081" ""))
             (Master.NewMaster 8080)).1.1).1.1).1.1.
Proof.
  apply (proj2 (proj2 chunk_handles_resolve)).
  do 3 apply Master.reachable_step. apply Master.reachable_new.
Defined.

(** ** Replica selection *)

(** C3.  For a known path (in a reachable coordinator state), the allocate
    operation answers 503 "No available servers" when no server is
    registered; otherwise it answers 200 with a chunk record whose replica
    list is non-empty and has length
    [min ReplicationFactor (number of registered servers)]. *)
Theorem allocate_replica_count m filename file now :
  Master.reachable m →
  Master.files m !! filename = Some file →
  let resp := (Master.handleAllocateChunk (http_Post "file" filename "") now m).1.2 in
  (Master.servers m = [] →
     resp = text_Error "No available servers" StatusServiceUnavailable ∧
     StatusCode resp = 503) ∧
  (Master.servers m ≠ [] →
     ∃ c, resp = mkResponse StatusOK (JSONChunk c) ∧
          Servers c ≠ [] ∧
          length (Servers c)
          = Nat.min ReplicationFactor (length (Master.servers m))).
Proof.
  intros Hreach Hfile resp.
  assert (Hne : filename ≠ "").
  { intros ->. apply reachable_well_formed in Hreach.
    destruct Hreach as [Hf _ _ _]. congruence. }
  subst resp. split.
  - intros Hnil. by rewrite (allocate_post_empty _ file).
  - intros Hsrv. destruct (Master.servers m) as [|primary rest] eqn:Hs; [done|].
    rewrite (allocate_post_ok _ file _ _ primary rest) by done.
    eexists. split; [reflexivity|]. simpl. rewrite Hs. split; [done|].
    simpl. f_equal. by rewrite length_take.
Qed.

(** The scenario of the specification: replication factor three, exactly
    two registered servers, a replica list of length two. *)
Lemma allocate_replica_count_witness :
  let m :=
    (Master.step (Master.Create (http_Post "file" "/hello.txt" ""))
       (Master.step (Master.Register (http_Post "server" "localhost:8082" ""))
          (Master.step (Master.Register (http_Post "server" "localhost:8081" ""))
             (Master.NewMaster 8080)).1.1).1.1).1.1 in
  ∃ c, (Master.handleAllocateChunk (http_Post "file" "/hello.txt" "") 0 m).1.2
       = mkResponse StatusOK (JSONChunk c) ∧
       Servers c ≠ [] ∧ length (Servers c) = 2%nat.
Proof.
  intros m.
  refine (proj2 (allocate_replica_count m "/hello.txt"
                   (mkFileInfo "/hello.txt" [] 0) 0 _ _) _).
  - do 3 apply Master.reachable_step. apply Master.reachable_new.
  - vm_compute. reflexivity.
  - vm_compute. discriminate.
Defined.

(** ** Registration *)

(** C5.  Registering the same (non-empty) address twice: both calls answer
    200, the second call changes nothing at all, so the server list has
    the same length and content as after the first call; the address is
    listed, and a list without duplicates stays without duplicates. *)
Theorem register_idempotent (a : string) (m : Master.t) :
  a ≠ "" →
  let r := http_Post "server" a "" in
  let once := Master.handleRegisterServer r m in
  let twice := Master.handleRegisterServer r once.1.1 in
  StatusCode once.1.2 = StatusOK ∧
  StatusCode twice.1.2 = StatusOK ∧
  twice.1.1 = once.1.1 ∧
  length (Master.servers twice.1.1) = length (Master.servers once.1.1) ∧
  a ∈ Master.servers once.1.1 ∧
  (NoDup (Master.servers m) → NoDup (Master.servers twice.1.1)).
Proof.
  intros Ha r once twice. subst r once twice.
  rewrite (register_post a m) by done.
  destruct (Master.registered a (Master.servers m)) eqn:Hreg; simpl.
  - rewrite (register_post a m) by done. rewrite Hreg. simpl.
    split_and!; try done. by apply registered_elem.
  - rewrite register_post by done. simpl.
    rewrite registered_app_self. simpl.
    split_and!; try done.
    + set_solver.
    + intros Hnd. apply NoDup_app. split_and!; [done | | apply NoDup_singleton].
      intros x Hx Hx'. apply list_elem_of_singleton in Hx'. subst x.
      apply registered_elem in Hx. congruence.
Qed.

Lemma register_idempotent_witness :
  let r := http_Post "server" "localhost:8081" "" in
  let once := Master.handleRegisterServer r (Master.NewMaster 8080) in
  let twice := Master.handleRegisterServer r once.1.1 in
  StatusCode once.1.2 = StatusOK ∧
  StatusCode twice.1.2 = StatusOK ∧
  twice.1.1 = once.1.1 ∧
  length (Master.servers twice.1.1) = length (Master.servers once.1.1) ∧
  "localhost:8081" ∈ Master.servers once.1.1 ∧
  (NoDup (Master.servers (Master.NewMaster 8080))
   → NoDup (Master.servers twice.1.1)).
Proof.
  apply (register_idempotent "localhost:8081" (Master.NewMaster 8080)).
  discriminate.
Defined.

(** ** Failed allocations *)

Lemma allocateMany_empty filename file nows m :
  filename ≠ "" → Master.files m !! filename = Some file →
  Master.servers m = [] →
  int_min ≤ Master.nextChunk m ≤ int_max →
  Master.allocateMany (http_Post "file" filename "") nows m
  = (Master.set_nextChunk
       (wrap_int (Master.nextChunk m + Z.of_nat (length nows))) m,
     replicate (length nows)
       (text_Error "No available servers" StatusServiceUnavailable)).
Proof.
  intros Hne. revert m. induction nows as [|now rest IH]; intros m Hf Hs Hc.
  - simpl. rewrite Z.add_0_r, wrap_int_id by done. by destruct m.
  - simpl Master.allocateMany.
    rewrite (allocate_post_empty _ file) by done.
    rewrite IH; [|done|done|apply wrap_int_range].
    simpl. unfold Master.set_nextChunk, int_incr. simpl.
    rewrite wrap_int_add_l. do 3 f_equal. lia.
Qed.

(** C10.  With the file known and no server registered, every allocation
    attempt answers 503 and leaves the file table and the chunk table
    untouched, yet advances the counter by one (modulo the width of
    [int]).  After [k] failed attempts and the registration of a server,
    the next allocation succeeds and its handle is numbered [k] above the
    counter the failures started from: one value is skipped per failure. *)
Theorem failed_allocation_burns_handle m filename file nows s now :
  Master.reachable m →
  Master.files m !! filename = Some file →
  Master.servers m = [] →
  s ≠ "" →
  let failed := Master.allocateMany (http_Post "file" filename "") nows m in
  let m1 := failed.1 in
  let m2 := (Master.handleRegisterServer (http_Post "server" s "") m1).1.1 in
  let next := (Master.handleAllocateChunk (http_Post "file" filename "") now m2).1.2 in
  failed.2 = replicate (length nows)
               (text_Error "No available servers" StatusServiceUnavailable) ∧
  Master.files m1 = Master.files m ∧
  Master.chunks m1 = Master.chunks m ∧
  Master.nextChunk m1 = wrap_int (Master.nextChunk m + Z.of_nat (length nows)) ∧
  ∃ c, next = mkResponse StatusOK (JSONChunk c) ∧
       Handle c = Master.chunkHandleOf
                    (wrap_int (Master.nextChunk m + Z.of_nat (length nows))).
Proof.
  intros Hreach Hfile Hnil Hs failed m1 m2 next.
  pose proof (reachable_well_formed _ Hreach) as [Hwf _ _ Hc].
  assert (Hne : filename ≠ "") by (intros ->; congruence).
  assert (Hm1 : failed
          = (Master.set_nextChunk
               (wrap_int (Master.nextChunk m + Z.of_nat (length nows))) m,
             replicate (length nows)
               (text_Error "No available servers" StatusServiceUnavailable))).
  { subst failed. by apply (allocateMany_empty filename file). }
  subst next m2 m1. rewrite Hm1. simpl.
  split_and!; try done.
  rewrite register_post by done. simpl. rewrite Hnil. simpl.
  rewrite (allocate_post_ok filename file now _ s []); [|done|done|done].
  eexists. split; reflexivity.
Qed.

Lemma failed_allocation_burns_handle_witness :
  let m := (Master.handleCreateFile (http_Post "file" "/hello.txt" "")
              (Master.NewMaster 8080)).1.1 in
  let failed := Master.allocateMany (http_Post "file" "/hello.txt" "") [10; 20] m in
  let m2 := (Master.handleRegisterServer
               (http_Post "server" "localhost:8081" "") failed.1).1.1 in
  let next := (Master.handleAllocateChunk
                 (http_Post "file" "/hello.txt" "") 30 m2).1.2 in
  failed.2 = replicate 2 (text_Error "No available servers" StatusServiceUnavailable) ∧
  Master.files failed.1 = Master.files m ∧
  Master.chunks failed.1 = Master.chunks m ∧
  Master.nextChunk failed.1 = wrap_int (1 + 2) ∧
  ∃ c, next = mkResponse StatusOK (JSONChunk c) ∧
       Handle c = Master.chunkHandleOf (wrap_int (1 + 2)).
Proof.
  intros m.
  refine (failed_allocation_burns_handle m "/hello.txt"
            (mkFileInfo "/hello.txt" [] 0) [10; 20] "localhost:8081" 30 _ _ _ _).
  - apply (Master.reachable_step (Master.Create _)). apply Master.reachable_new.
  - vm_compute. reflexivity.
  - reflexivity.
  - discriminate.
Defined.

(** The handle after two failures is [chunk_3], not [chunk_1]. *)
Example burned_handles_example :
  Master.chunkHandleOf (wrap_int (1 + 2)) = "chunk_3".
Proof. reflexivity. Qed.

(** ** Runs of successful allocations *)

Lemma chunk_run_length n replicas primary nows :
  length (chunk_run n replicas primary nows) = length nows.
Proof.
  revert n. induction nows as [|now rest IH]; intros n; simpl; [done|].
  by rewrite IH.
Qed.

Lemma chunk_run_handles n replicas primary nows :
  int_min ≤ n ≤ int_max →
  map Handle (chunk_run n replicas primary nows)
  = map (λ i : nat, Master.chunkHandleOf (wrap_int (n + Z.of_nat i)))
        (seq 0 (length nows)).
Proof.
  revert n. induction nows as [|now rest IH]; intros n Hn; simpl; [done|].
  rewrite Z.add_0_r, wrap_int_id by done. f_equal.
  rewrite IH by apply wrap_int_range.
  rewrite <- seq_shift, map_map. apply map_ext. intros i.
  unfold int_incr. rewrite wrap_int_add_l. do 2 f_equal. lia.
Qed.

(** Fewer than [2^64] consecutive counter values never repeat a handle. *)
Lemma chunk_run_NoDup n replicas primary nows :
  int_min ≤ n ≤ int_max →
  Z.of_nat (length nows) ≤ int_modulus →
  NoDup (map Handle (chunk_run n replicas primary nows)).
Proof.
  intros Hn Hlen. rewrite chunk_run_handles by done.
  apply (NoDup_fmap_2_strong
           (λ i : nat, Master.chunkHandleOf (wrap_int (n + Z.of_nat i)))).
  - intros i j Hi Hj Heq. apply elem_of_seq in Hi, Hj.
    apply chunkHandleOf_inj, wrap_int_eq_close in Heq; lia.
  - apply NoDup_seq.
Qed.

Lemma wrap_int_period z : wrap_int (z + int_modulus) = wrap_int z.
Proof.
  unfold wrap_int. f_equal.
  replace (z + int_modulus - int_min) with (z - int_min + 1 * int_modulus) by lia.
  apply Z_mod_plus_full.
Qed.

(** The bound is sharp: one allocation more and the first handle comes
    back. *)
Lemma chunk_run_repeats n replicas primary nows :
  int_min ≤ n ≤ int_max →
  int_modulus < Z.of_nat (length nows) →
  map Handle (chunk_run n replicas primary nows) !! 0%nat
  = map Handle (chunk_run n replicas primary nows) !! Z.to_nat int_modulus.
Proof.
  intros Hn Hlen. rewrite chunk_run_handles by done.
  rewrite !list_lookup_fmap.
  rewrite !lookup_seq_lt by (rewrite ?int_modulus_eq in *; lia).
  simpl. rewrite Z2Nat.id by by rewrite int_modulus_eq.
  by rewrite Z.add_0_r, wrap_int_period.
Qed.

Lemma record_chunks_other table cs h :
  h ∉ map Handle cs → record_chunks table cs !! h = table !! h.
Proof.
  revert table. induction cs as [|c cs IH]; intros table Hh; [done|].
  simpl in Hh. apply not_elem_of_cons in Hh as [Hne Hh].
  change (record_chunks (<[Handle c := c]> table) cs !! h = table !! h).
  rewrite IH by done. by rewrite lookup_insert_ne.
Qed.

Lemma record_chunks_lookup table cs c :
  NoDup (map Handle cs) → c ∈ cs →
  record_chunks table cs !! Handle c = Some c.
Proof.
  revert table. induction cs as [|c0 cs IH]; intros table Hnd Hc.
  - by apply elem_of_nil in Hc.
  - simpl in Hnd. apply NoDup_cons in Hnd as [Hfresh Hnd].
    apply elem_of_cons in Hc as [->|Hc].
    + change (record_chunks (<[Handle c0 := c0]> table) cs !! Handle c0 = Some c0).
      rewrite record_chunks_other by done. apply lookup_insert_eq.
    + by apply (IH (<[Handle c0 := c0]> table)).
Qed.

Lemma FileInfo_eta (file : FileInfo) :
  {| Name := Name file; Chunks := Chunks file; FileSize := FileSize file |} = file.
Proof. by destruct file. Qed.

(** The state after a run of allocations, all of which succeed because a
    server is registered. *)
Lemma allocateMany_ok filename primary rest nows : ∀ file m,
  filename ≠ "" →
  Master.files m !! filename = Some file →
  Master.servers m = primary :: rest →
  int_min ≤ Master.nextChunk m ≤ int_max →
  let cs := chunk_run (Master.nextChunk m)
              (take ReplicationFactor (primary :: rest)) primary nows in
  Master.allocateMany (http_Post "file" filename "") nows m
  = ({| Master.files :=
          <[filename := {| Name := Name file;
                           Chunks := Chunks file ++ map Handle cs;
                           FileSize := FileSize file |}]> (Master.files m);
        Master.chunks := record_chunks (Master.chunks m) cs;
        Master.servers := Master.servers m;
        Master.nextChunk :=
          wrap_int (Master.nextChunk m + Z.of_nat (length nows));
        Master.port := Master.port m |},
     map ok_chunk cs).
Proof.
  induction nows as [|now nows IH]; intros file m Hne Hfile Hsrv Hn cs.
  - subst cs. simpl. rewrite app_nil_r, FileInfo_eta, insert_id by done.
    rewrite Z.add_0_r, wrap_int_id by done. by destruct m.
  - subst cs. simpl Master.allocateMany.
    rewrite (allocate_post_ok filename file now m primary rest) by done.
    set (c := allocated_chunk m now primary).
    set (m1 := allocated_state m filename file c).
    specialize (IH {| Name := Name file; Chunks := Chunks file ++ [Handle c];
                      FileSize := FileSize file |} m1 Hne).
    rewrite IH; [| by apply lookup_insert_eq | done | apply wrap_int_range].
    subst m1 c. unfold allocated_state, allocated_chunk. simpl.
    rewrite Hsrv. simpl. f_equal; try reflexivity. f_equal.
    + rewrite insert_insert_eq. do 2 f_equal. by rewrite <- app_assoc.
    + unfold int_incr. rewrite wrap_int_add_l. f_equal. lia.
Qed.

(** C4, as the code has it.  In a reachable coordinator state with the
    file known and at least one server registered, [N] allocations in
    sequence (for [N] up to [2^64], the number of values of the [int]
    counter) all answer 200; the [N] handles are pairwise distinct; and a
    following get-chunks answers 200 with the records of the handles the
    file had before, followed by exactly the [N] new records in the order
    of the calls. *)
Theorem allocations_distinct_in_call_order m filename file nows :
  Master.reachable m →
  Master.files m !! filename = Some file →
  Master.servers m ≠ [] →
  Z.of_nat (length nows) ≤ int_modulus →
  let run := Master.allocateMany (http_Post "file" filename "") nows m in
  ∃ cs,
    run.2 = map ok_chunk cs ∧
    length cs = length nows ∧
    NoDup (map Handle cs) ∧
    (Master.handleGetChunks (http_Get "file" filename) run.1).1.2
    = mkResponse StatusOK
        (JSONChunks (map (λ h, Master.chunks run.1 !! h) (Chunks file)
                     ++ map Some cs)).
Proof.
  intros Hreach Hfile Hsrv Hlen run.
  pose proof (reachable_well_formed _ Hreach) as [Hwf _ _ Hn].
  assert (Hne : filename ≠ "") by (intros ->; congruence).
  destruct (Master.servers m) as [|primary rest] eqn:Hs; [done|].
  subst run.
  rewrite (allocateMany_ok filename primary rest nows file m) by done.
  set (cs := chunk_run _ _ _ _).
  assert (Hnd : NoDup (map Handle cs)) by by apply chunk_run_NoDup.
  exists cs. split_and!; [done | apply chunk_run_length | done |].
  cbn [fst snd].
  erewrite getChunks_get; [|done|by apply lookup_insert_eq].
  cbn [fst snd Chunks Master.chunks]. do 2 f_equal.
  rewrite map_app. f_equal. rewrite map_map.
  apply map_ext_in. intros c Hc. apply record_chunks_lookup; [done|].
  by apply list_elem_of_In.
Qed.

Lemma allocations_distinct_in_call_order_witness :
  let m :=
    (Master.step (Master.Create (http_Post "file" "/hello.txt" ""))
       (Master.step (Master.Register (http_Post "server" "localhost:8081" ""))
          (Master.NewMaster 8080)).1.1).1.1 in
  let run := Master.allocateMany (http_Post "file" "/hello.txt" "") [10; 20; 30] m in
  ∃ cs,
    run.2 = map ok_chunk cs ∧
    length cs = 3%nat ∧
    NoDup (map Handle cs) ∧
    (Master.handleGetChunks (http_Get "file" "/hello.txt") run.1).1.2
    = mkResponse StatusOK (JSONChunks ([] ++ map Some cs)).
Proof.
  intros m.
  refine (allocations_distinct_in_call_order m "/hello.txt"
            (mkFileInfo "/hello.txt" [] 0) [10; 20; 30] _ _ _ _).
  - do 2 apply Master.reachable_step. apply Master.reachable_new.
  - vm_compute. reflexivity.
  - vm_compute. discriminate.
  - vm_compute. discriminate.
Defined.

(** C4 as worded fails without a registered server: the file exists, the
    allocation is issued, and it yields no handle at all. *)
Lemma allocation_without_server_yields_nothing :
  let m := (Master.handleCreateFile (http_Post "file" "/hello.txt" "")
              (Master.NewMaster 8080)).1.1 in
  let run := Master.allocateMany (http_Post "file" "/hello.txt" "") [0] m in
  Master.files m !! "/hello.txt" = Some (mkFileInfo "/hello.txt" [] 0) ∧
  run.2 = [text_Error "No available servers" StatusServiceUnavailable] ∧
  (Master.handleGetChunks (http_Get "file" "/hello.txt") run.1).1.2
  = mkResponse StatusOK (JSONChunks []) ∧
  ¬ ∃ cs, length cs = 1%nat ∧ run.2 = map ok_chunk cs.
Proof.
  intros m run. split_and!; [by vm_compute | by vm_compute | by vm_compute |].
  intros (cs & Hlen & Hrun).
  destruct cs as [|c [|? ?]]; try discriminate;
    vm_compute in Hrun; discriminate.
Qed.

(** ** The storage server's store path *)

Lemma handleWrite_post
    (filepath_Join : string → string → string) handle data outcome cs disk :
  handle ≠ "" →
  Chunkserver.handleWrite filepath_Join (http_Post "chunk" handle data)
    outcome cs disk
  = (Chunkserver.set_chunks (<[handle := data]> (Chunkserver.chunks cs)) cs,
     match outcome with
     | Chunkserver.WriteOK =>
         <[filepath_Join (Chunkserver.dataDir cs) handle := data]> disk
     | Chunkserver.WriteFailed (Some partial) =>
         <[filepath_Join (Chunkserver.dataDir cs) handle := partial]> disk
     | Chunkserver.WriteFailed None =>
         delete (filepath_Join (Chunkserver.dataDir cs) handle) disk
     end,
     mkResponse StatusOK "",
     match outcome with
     | Chunkserver.WriteOK =>
         [LogStored handle (Z.of_nat (String.length data))
            (Chunkserver.address cs)]
     | Chunkserver.WriteFailed _ =>
         [LogDiskWriteFailed handle;
          LogStored handle (Z.of_nat (String.length data))
            (Chunkserver.address cs)]
     end).
Proof.
  intros Hne. unfold Chunkserver.handleWrite. run_handler. simpl Body. cbv iota.
  by destruct outcome as [|[partial|]].
Qed.

Lemma handleRead_hit
    (filepath_Join : string → string → string) handle data cs disk :
  handle ≠ "" →
  Chunkserver.chunks cs !! handle = Some data →
  Chunkserver.handleRead filepath_Join (http_Get "chunk" handle) cs disk
  = (cs, disk, mkResponse StatusOK data, []).
Proof.
  intros Hne Hhit. unfold Chunkserver.handleRead. run_handler. by rewrite Hhit.
Qed.

(** C6.  For every non-empty chunk handle and every payload, the store
    handler answers 200 and leaves the payload in the in-memory cache under
    that handle, whether the disk write succeeds or fails, and whatever a
    failed write leaves on disk; the failure shows up only as a log line
    before the "stored" line. *)
Theorem store_succeeds_despite_disk_failure
    (filepath_Join : string → string → string) handle data outcome cs disk :
  handle ≠ "" →
  let out := Chunkserver.handleWrite filepath_Join
               (http_Post "chunk" handle data) outcome cs disk in
  let stored :=
    LogStored handle (Z.of_nat (String.length data)) (Chunkserver.address cs) in
  out.1.2 = mkResponse StatusOK "" ∧
  Chunkserver.chunks out.1.1.1 !! handle = Some data ∧
  out.2 = match outcome with
          | Chunkserver.WriteOK => [stored]
          | Chunkserver.WriteFailed _ => [LogDiskWriteFailed handle; stored]
          end.
Proof.
  intros Hne out stored. subst out stored.
  rewrite handleWrite_post by done. simpl.
  rewrite lookup_insert_eq. by destruct outcome.
Qed.

Lemma store_succeeds_despite_disk_failure_witness :
  let cs := Chunkserver.NewChunkserver "localhost:8081" "localhost:8080" in
  let out := Chunkserver.handleWrite (λ dir name, dir +:+ "/" +:+ name)
               (http_Post "chunk" "chunk_1" "Hello GFS!")
               (Chunkserver.WriteFailed None) cs ∅ in
  out.1.2 = mkResponse StatusOK "" ∧
  Chunkserver.chunks out.1.1.1 !! "chunk_1" = Some "Hello GFS!" ∧
  out.2 = [LogDiskWriteFailed "chunk_1";
           LogStored "chunk_1" 10 "localhost:8081"].
Proof.
  intros cs.
  apply (store_succeeds_despite_disk_failure (λ dir name, dir +:+ "/" +:+ name)
           "chunk_1" "Hello GFS!" (Chunkserver.WriteFailed None) cs ∅).
  discriminate.
Defined.

(** The cache then serves the payload although the disk has no copy. *)
Example cache_diverges_from_disk :
  let cs := Chunkserver.NewChunkserver "localhost:8081" "localhost:8080" in
  let join := λ dir name, dir +:+ "/" +:+ name in
  let out := Chunkserver.handleWrite join
               (http_Post "chunk" "chunk_1" "Hello GFS!")
               (Chunkserver.WriteFailed None) cs ∅ in
  out.1.1.2 = ∅ ∧
  (Chunkserver.handleRead join (http_Get "chunk" "chunk_1")
     out.1.1.1 out.1.1.2).1.2
  = mkResponse StatusOK "Hello GFS!".
Proof. split; by vm_compute. Qed.

(** ** The client *)

Section ClientFacts.

Variable filepath_Join : string → string → string.

Lemma call_master_up env c route handler w :
  Client.master_up env = true →
  Client.call_master env c route handler w
  = ({| Client.coordinator := (handler (Client.coordinator w)).1.1;
        Client.nodes := Client.nodes w |},
     Some (handler (Client.coordinator w)).1.2,
     Client.Call (Client.master c) route
       :: map (Client.Log Client.AtMaster) (handler (Client.coordinator w)).2).
Proof.
  intros Hup. unfold Client.call_master. rewrite Hup.
  by destruct (handler _) as [[m' resp] logs].
Qed.

Lemma call_master_down env c route handler w :
  Client.master_up env = false →
  Client.call_master env c route handler w
  = (w, None, [Client.Call (Client.master c) route]).
Proof. intros Hup. unfold Client.call_master. by rewrite Hup. Qed.

(** A name of safe characters arrives as it was given: the request is
    the one a handler sees for [?file=<name>]. *)
Lemma ask_master_post env c route filename handler w :
  url_safe filename = true →
  Client.ask_master env c "POST" route "file" filename handler w
  = Client.call_master env c route (handler (http_Post "file" filename "")) w.
Proof.
  intros Hsafe. unfold Client.ask_master. by rewrite deliver_safe.
Qed.

Lemma ask_master_get env c route filename handler w :
  url_safe filename = true →
  Client.ask_master env c "GET" route "file" filename handler w
  = Client.call_master env c route (handler (http_Get "file" filename)) w.
Proof.
  intros Hsafe. unfold Client.ask_master. by rewrite deliver_safe.
Qed.

(** Any name: the request is not sent, or the server refuses it before
    a handler runs, or a handler runs on some request. *)
Lemma ask_master_cases env c method route key value handler w :
  (∃ evs, Client.ask_master env c method route key value handler w
          = (w, None, evs))
  ∨ Client.ask_master env c method route key value handler w
    = (w, Some (mkResponse StatusBadRequest (Text "400 Bad Request")),
       [Client.Call (Client.master c) route])
  ∨ ∃ r, Client.ask_master env c method route key value handler w
         = Client.call_master env c route (handler r) w.
Proof.
  unfold Client.ask_master. destruct (deliver key value) as [| |query].
  - left. by eexists.
  - destruct (Client.master_up env); [right; by left|left; by eexists].
  - right; right. by eexists.
Qed.

(** C7.  In a reachable coordinator state, with the coordinator
    answering, reading a file whose name is made of URL-safe characters,
    whose record exists and lists no chunk, returns the empty content
    and no error; no storage server is contacted and nothing changes. *)
Theorem read_of_empty_file env c filename file w :
  Master.reachable (Client.coordinator w) →
  Client.master_up env = true →
  url_safe filename = true →
  Master.files (Client.coordinator w) !! filename = Some file →
  Chunks file = [] →
  Client.readFile filepath_Join env c filename w
  = (w, Client.Returned "" None, [Client.Call (Client.master c) "/chunks"]).
Proof.
  intros Hreach Hup Hsafe Hfile Hchunks.
  pose proof (reachable_well_formed _ Hreach) as [Hwf _ _ _].
  assert (Hne : filename ≠ "") by (intros ->; congruence).
  unfold Client.readFile. rewrite ask_master_get by done.
  rewrite call_master_up by done.
  rewrite (getChunks_get filename file) by done.
  rewrite Hchunks. simpl. by destruct w.
Qed.

(** *** Requests to a storage server *)

Lemma call_server_cases env addr route handler w :
  (answers env w addr = true ∧
   ∃ n, Client.nodes w !! addr = Some n ∧
        Client.call_server env addr route handler w
        = ({| Client.coordinator := Client.coordinator w;
              Client.nodes :=
                <[addr := {| Client.server :=
                               (handler (Client.server n) (Client.disk n)).1.1.1;
                             Client.disk :=
                               (handler (Client.server n) (Client.disk n)).1.1.2 |}]>
                  (Client.nodes w) |},
           Some (handler (Client.server n) (Client.disk n)).1.2,
           Client.Call addr route
             :: map (Client.Log (Client.AtServer addr))
                    (handler (Client.server n) (Client.disk n)).2))
  ∨ (answers env w addr = false ∧
     Client.call_server env addr route handler w
     = (w, None, [Client.Call addr route])).
Proof.
  unfold answers, Client.call_server.
  destruct (Client.server_up env addr); simpl; [|by right].
  destruct (Client.nodes w !! addr) as [n|] eqn:Hn.
  - left. split; [by apply bool_decide_eq_true_2|].
    exists n. split; [done|].
    by destruct (handler _ _) as [[[s' disk'] resp] logs].
  - right. split; [|done]. apply bool_decide_eq_false_2. by intros [? ?].
Qed.

Lemma call_server_coordinator env addr route handler w :
  Client.coordinator (Client.call_server env addr route handler w).1.1
  = Client.coordinator w.
Proof.
  destruct (call_server_cases env addr route handler w)
    as [(_ & n & _ & ->) | (_ & ->)]; done.
Qed.

Lemma call_server_answers env addr route handler w other :
  answers env (Client.call_server env addr route handler w).1.1 other
  = answers env w other.
Proof.
  destruct (call_server_cases env addr route handler w)
    as [(_ & n & Hn & ->) | (_ & ->)]; [|done].
  unfold answers. simpl. f_equal. apply bool_decide_ext.
  rewrite lookup_insert. case_decide; [subst|done].
  rewrite Hn. split; eauto.
Qed.

Lemma client_trace_server_logs addr logs :
  client_trace (map (Client.Log (Client.AtServer addr)) logs) = [].
Proof. induction logs; simpl; done. Qed.

Lemma client_trace_master_logs logs :
  client_trace (map (Client.Log Client.AtMaster) logs) = [].
Proof. induction logs; simpl; done. Qed.

Lemma client_trace_app evs1 evs2 :
  client_trace (evs1 ++ evs2) = client_trace evs1 ++ client_trace evs2.
Proof. apply List.filter_app. Qed.

Lemma fanout_once_ext env w w' servers :
  (∀ s, answers env w' s = answers env w s) →
  fanout_once env w' servers = fanout_once env w servers.
Proof.
  intros Hsame. unfold fanout_once.
  induction servers as [|s rest IH]; simpl; [done|]. by rewrite Hsame, IH.
Qed.

(** *** The fan-out of [writeFile] *)

Lemma writeReplicas_coordinator env handle data servers : ∀ w,
  Client.coordinator
    (Client.writeReplicas filepath_Join env handle data servers w).1
  = Client.coordinator w.
Proof.
  induction servers as [|s rest IH]; intros w; simpl; [done|].
  pose proof (call_server_coordinator env s "/write"
    (Chunkserver.handleWrite filepath_Join (http_Post "chunk" handle data)
       (Client.disk_write env s)) w) as Hc.
  destruct (Client.call_server _ _ _ _ _) as [[w1 resp] evs].
  specialize (IH w1).
  destruct (Client.writeReplicas _ _ _ _ _ _) as [w2 more].
  simpl in *. congruence.
Qed.

Lemma writeReplicas_trace env handle data servers : ∀ w,
  client_trace (Client.writeReplicas filepath_Join env handle data servers w).2
  = fanout_once env w servers.
Proof.
  induction servers as [|s rest IH]; intros w; simpl; [done|].
  pose proof (call_server_answers env s "/write"
    (Chunkserver.handleWrite filepath_Join (http_Post "chunk" handle data)
       (Client.disk_write env s)) w) as Hsame.
  destruct (call_server_cases env s "/write"
    (Chunkserver.handleWrite filepath_Join (http_Post "chunk" handle data)
       (Client.disk_write env s)) w)
    as [(Hans & n & Hn & Hcall) | (Hans & Hcall)];
    rewrite Hcall in *; rewrite Hans; clear Hcall;
    match goal with |- context [Client.writeReplicas ?f ?e ?h ?d ?l ?w1] =>
      specialize (IH w1);
      destruct (Client.writeReplicas f e h d l w1) as [w2 more]
    end;
    simpl in *; rewrite ?client_trace_app, ?client_trace_server_logs, IH;
    simpl; f_equal; by apply fanout_once_ext.
Qed.

Lemma store_holds env handle data s w n :
  handle ≠ "" →
  Client.server_up env s = true →
  Client.nodes w !! s = Some n →
  holds (Client.call_server env s "/write"
           (Chunkserver.handleWrite filepath_Join
              (http_Post "chunk" handle data) (Client.disk_write env s)) w).1.1
        s handle data.
Proof.
  intros Hne Hup Hn.
  destruct (call_server_cases env s "/write"
    (Chunkserver.handleWrite filepath_Join (http_Post "chunk" handle data)
       (Client.disk_write env s)) w)
    as [(_ & n' & Hn' & ->) | (Hans & _)].
  - eexists. simpl. rewrite lookup_insert_eq. split; [done|]. simpl.
    rewrite handleWrite_post by done. simpl. apply lookup_insert_eq.
  - unfold answers in Hans. rewrite Hup in Hans. simpl in Hans.
    apply bool_decide_eq_false_1 in Hans. destruct Hans. rewrite Hn. eauto.
Qed.

Lemma store_keeps env handle data s w addr :
  handle ≠ "" →
  holds w addr handle data →
  holds (Client.call_server env s "/write"
           (Chunkserver.handleWrite filepath_Join
              (http_Post "chunk" handle data) (Client.disk_write env s)) w).1.1
        addr handle data.
Proof.
  intros Hne (n0 & Hn0 & Hdata).
  destruct (call_server_cases env s "/write"
    (Chunkserver.handleWrite filepath_Join (http_Post "chunk" handle data)
       (Client.disk_write env s)) w)
    as [(_ & n' & Hn' & ->) | (_ & ->)]; [|by exists n0].
  simpl. unfold holds. simpl. rewrite lookup_insert. case_decide.
  - subst. eexists. split; [done|]. simpl.
    rewrite handleWrite_post by done. simpl. apply lookup_insert_eq.
  - by exists n0.
Qed.

Lemma writeReplicas_keeps env handle data servers addr : ∀ w,
  handle ≠ "" →
  holds w addr handle data →
  holds (Client.writeReplicas filepath_Join env handle data servers w).1
        addr handle data.
Proof.
  induction servers as [|s rest IH]; intros w Hne Hholds; simpl; [done|].
  pose proof (store_keeps env handle data s w addr Hne Hholds) as Hstep.
  destruct (Client.call_server _ _ _ _ _) as [[w1 resp] evs].
  specialize (IH w1 Hne Hstep).
  by destruct (Client.writeReplicas _ _ _ _ _ _) as [w2 more].
Qed.

(** C2.  Once the allocation has answered 200 with a chunk record, the
    write returns no error, whatever the reachability of the replicas and
    whatever their disks do.  The client sends exactly one POST per entry
    of the replica list, in list order (nothing is retried), logs one
    failure line right after each POST that got no answer, goes on with
    the next replica, and ends with its "wrote" line; the coordinator's
    state is the one the allocation left. *)
Theorem write_succeeds_whatever_replicas_do env c filename data w chunk :
  let created := Client.createFile env c filename w in
  let allocation :=
    Client.ask_master env c "POST" "/allocate" "file" filename
      (λ r, Master.handleAllocateChunk r (Client.now env))
      created.1.1 in
  allocation.1.2 = Some (ok_chunk chunk) →
  ∃ w3 evs3,
    Client.writeFile filepath_Join env c filename data w
    = (w3, None,
       created.2 ++ allocation.2 ++ evs3
       ++ [Client.Log Client.AtClient
             (LogWrote filename (Z.of_nat (String.length data)))]) ∧
    Client.coordinator w3 = Client.coordinator allocation.1.1 ∧
    client_trace evs3 = fanout_once env allocation.1.1 (Servers chunk).
Proof.
  intros created allocation Halloc. subst created allocation.
  unfold Client.writeFile.
  destruct (Client.createFile env c filename w) as [[w1 e1] evs1].
  simpl in *.
  destruct (Client.ask_master env c "POST" "/allocate" _ _ _ w1)
    as [[w2 resp] evs2].
  simpl in *. subst resp. simpl.
  pose proof (writeReplicas_coordinator env (Handle chunk) data (Servers chunk) w2) as Hc.
  pose proof (writeReplicas_trace env (Handle chunk) data (Servers chunk) w2) as Ht.
  destruct (Client.writeReplicas _ _ _ _ _ w2) as [w3 evs3].
  by exists w3, evs3.
Qed.

(** *** Write, then read *)

Lemma createFile_chunkless env c filename w :
  Client.master_up env = true →
  url_safe filename = true →
  filename ≠ "" →
  chunkless (Client.coordinator w) filename →
  ∃ m1 file1,
    (Client.createFile env c filename w).1.1
    = {| Client.coordinator := m1; Client.nodes := Client.nodes w |} ∧
    Master.files m1 !! filename = Some file1 ∧
    Chunks file1 = [] ∧
    Master.servers m1 = Master.servers (Client.coordinator w).
Proof.
  intros Hup Hsafe Hne Hless. unfold Client.createFile, chunkless in *.
  rewrite ask_master_post by done.
  rewrite call_master_up by done. rewrite create_post by done.
  destruct (Master.files (Client.coordinator w) !! filename) as [file|] eqn:Hf;
    simpl.
  - exists (Client.coordinator w), file. by rewrite Hf.
  - eexists _, _. split; [reflexivity|]. simpl.
    by rewrite lookup_insert_eq.
Qed.

Lemma writeReplicas_first_holds env handle data primary others w n :
  handle ≠ "" →
  Client.server_up env primary = true →
  Client.nodes w !! primary = Some n →
  holds (Client.writeReplicas filepath_Join env handle data
           (primary :: others) w).1
        primary handle data.
Proof.
  intros Hne Hup Hn. simpl.
  pose proof (store_holds env handle data primary w n Hne Hup Hn) as Hfirst.
  destruct (Client.call_server env primary "/write" _ w) as [[w1 resp] evs].
  pose proof (writeReplicas_keeps env handle data others primary w1 Hne Hfirst)
    as Hkeep.
  by destruct (Client.writeReplicas _ _ _ _ _ w1) as [w2 more].
Qed.

(** C1, as the code has it.  If the file name is made of URL-safe
    characters (so that the coordinator sees the name the caller gave),
    the file has no chunk before the write (it is new, or known with an
    empty chunk list), the write returns no error, and every selected
    replica is reachable, runs a storage server and writes its disk
    successfully, then reading the file right away returns exactly the
    data written, and no error. *)
Theorem first_write_then_read env c filename data w w1 evs :
  url_safe filename = true →
  Client.writeFile filepath_Join env c filename data w = (w1, None, evs) →
  chunkless (Client.coordinator w) filename →
  (∀ s, s ∈ Master.selectServers (Client.coordinator w) ReplicationFactor →
        Client.server_up env s = true ∧
        is_Some (Client.nodes w !! s) ∧
        Client.disk_write env s = Chunkserver.WriteOK) →
  ∃ w2 evs',
    Client.readFile filepath_Join env c filename w1
    = (w2, Client.Returned data None, evs').
Proof.
  intros Hsafe Hwrite Hless Hreplicas.
  (* the coordinator answered *)
  destruct (Client.master_up env) eqn:Hup; cycle 1.
  { unfold Client.writeFile, Client.createFile in Hwrite.
    rewrite ask_master_post, call_master_down in Hwrite by done.
    cbn iota in Hwrite.
    rewrite ask_master_post, call_master_down in Hwrite by done.
    discriminate. }
  (* the file has a name *)
  destruct (String.eqb_spec filename "") as [->|Hne].
  { unfold Client.writeFile, Client.createFile in Hwrite.
    rewrite ask_master_post in Hwrite by done.
    rewrite call_master_up in Hwrite by done.
    unfold Master.handleCreateFile in Hwrite.
    rewrite !Query_Get_post in Hwrite. simpl in Hwrite.
    rewrite ask_master_post in Hwrite by done.
    rewrite call_master_up in Hwrite by done. cbn beta in Hwrite.
    rewrite ?Query_Get_post in Hwrite. simpl in Hwrite. discriminate. }
  destruct (createFile_chunkless env c filename w Hup Hsafe Hne Hless)
    as (m1 & file1 & Hcreated & Hfile1 & Hchunks1 & Hservers1).
  unfold Client.writeFile in Hwrite.
  destruct (Client.createFile env c filename w) as [[w0 e1] evs1].
  simpl in Hcreated. subst w0.
  rewrite ask_master_post in Hwrite by done.
  rewrite call_master_up in Hwrite by done. cbn [Client.coordinator] in Hwrite.
  rewrite selectServers_take in Hreplicas.
  (* a server is registered *)
  destruct (Master.servers m1) as [|primary rest] eqn:Hsrv.
  { rewrite (allocate_post_empty filename file1) in Hwrite by done.
    simpl in Hwrite. discriminate. }
  rewrite (allocate_post_ok filename file1 _ _ primary rest) in Hwrite by done.
  cbn [fst snd StatusCode RespBody Z.eqb negb StatusOK Pos.eqb
       Client.nodes Client.coordinator] in Hwrite.
  set (chunk := allocated_chunk m1 (Client.now env) primary) in *.
  set (w2 := {| Client.coordinator := allocated_state m1 filename file1 chunk;
                Client.nodes := Client.nodes w |}) in *.
  assert (Hservers : Servers chunk = primary :: take 2 rest).
  { subst chunk. simpl. by rewrite Hsrv. }
  assert (Hhandle : Handle chunk ≠ "") by apply chunkHandleOf_nonempty.
  destruct (Hreplicas primary) as (Hprimary_up & [n Hn] & _).
  { rewrite <- Hservers1. simpl. left. }
  (* the fan-out leaves the data at the primary *)
  pose proof (writeReplicas_first_holds env (Handle chunk) data primary
                (take 2 rest) w2 n Hhandle Hprimary_up Hn) as Hholds.
  rewrite <- Hservers in Hholds.
  pose proof (writeReplicas_coordinator env (Handle chunk) data
                (Servers chunk) w2) as Hcoord.
  destruct (Client.writeReplicas filepath_Join env (Handle chunk) data
              (Servers chunk) w2) as [w3 evs3] eqn:Hrun.
  assert (w3 = w1) as -> by congruence.
  cbn [fst] in Hholds, Hcoord. subst w2. cbn [Client.coordinator] in Hcoord.
  clear Hwrite.
  (* the read *)
  unfold Client.readFile. rewrite ask_master_get by done.
  rewrite call_master_up by done.
  rewrite Hcoord.
  erewrite getChunks_get; [|done|by apply lookup_insert_eq].
  cbn [fst snd StatusCode RespBody Z.eqb negb StatusOK Pos.eqb Chunks
       allocated_state Master.chunks].
  rewrite Hchunks1. cbn [app map]. rewrite lookup_insert_eq.
  rewrite Hservers.
  destruct Hholds as (n1 & Hn1 & Hdata).
  destruct (call_server_cases env primary "/read"
    (Chunkserver.handleRead filepath_Join (http_Get "chunk" (Handle chunk)))
    {| Client.coordinator := allocated_state m1 filename file1 chunk;
       Client.nodes := Client.nodes w1 |})
    as [(_ & n' & Hn' & ->) | (Hans & _)].
  - simpl in Hn'. rewrite Hn1 in Hn'. injection Hn' as <-.
    rewrite (handleRead_hit _ _ data) by done. simpl. eauto.
  - unfold answers in Hans. rewrite Hprimary_up in Hans. simpl in Hans.
    apply bool_decide_eq_false_1 in Hans. destruct Hans. rewrite Hn1. eauto.
Qed.

End ClientFacts.

Lemma read_of_empty_file_witness :
  let w := {| Client.coordinator :=
                (Master.step (Master.Create (http_Post "file" "/hello.txt" ""))
                   (Master.NewMaster 8080)).1.1;
              Client.nodes := ∅ |} in
  let env := {| Client.master_up := true; Client.server_up := λ _, true;
                Client.disk_write := λ _, Chunkserver.WriteOK;
                Client.now := 0 |} in
  let c := Client.NewClient "localhost:8080" in
  Client.readFile (λ dir name, dir +:+ "/" +:+ name) env c "/hello.txt" w
  = (w, Client.Returned "" None, [Client.Call "localhost:8080" "/chunks"]).
Proof.
  intros w env c.
  refine (read_of_empty_file (λ dir name, dir +:+ "/" +:+ name) env c
            "/hello.txt" (mkFileInfo "/hello.txt" [] 0) w _ _ _ _ _).
  - apply Master.reachable_step. apply Master.reachable_new.
  - reflexivity.
  - reflexivity.
  - vm_compute. reflexivity.
  - reflexivity.
Defined.

(** ** The demo deployment *)

Lemma first_write_then_read_witness :
  ∃ w2 evs',
    Client.readFile demo_join demo_env demo_client "/hello.txt"
      (Client.writeFile demo_join demo_env demo_client "/hello.txt"
         "Hello, GFS World!" demo_world).1.1
    = (w2, Client.Returned "Hello, GFS World!" None, evs').
Proof.
  refine (first_write_then_read demo_join demo_env demo_client "/hello.txt"
            "Hello, GFS World!" demo_world
            (Client.writeFile demo_join demo_env demo_client "/hello.txt"
               "Hello, GFS World!" demo_world).1.1
            (Client.writeFile demo_join demo_env demo_client "/hello.txt"
               "Hello, GFS World!" demo_world).2 _ _ _ _).
  - reflexivity.
  - vm_compute. reflexivity.
  - vm_compute. exact I.
  - intros s Hs. rewrite selectServers_take in Hs.
    change (s ∈ demo_servers) in Hs. unfold demo_servers in Hs.
    repeat (apply elem_of_cons in Hs as [-> | Hs]);
      [| | | by apply elem_of_nil in Hs];
      (split_and!; [reflexivity | vm_compute; eauto | reflexivity]).
Defined.

(** C1 as worded fails on a second write to the same file: the write
    succeeds on three healthy replicas, and the read that follows returns
    the data of the first write, because only the first chunk of a file is
    ever read. *)
Lemma second_write_is_not_read_back :
  let w1 := (Client.writeFile demo_join demo_env demo_client "/hello.txt"
               "old" demo_world).1.1 in
  let second := Client.writeFile demo_join demo_env demo_client "/hello.txt"
                  "new" w1 in
  Forall (λ s, answers demo_env w1 s = true ∧
               Client.disk_write demo_env s = Chunkserver.WriteOK)
         (Master.selectServers (Client.coordinator w1) ReplicationFactor) ∧
  second.1.2 = None ∧
  (Client.readFile demo_join demo_env demo_client "/hello.txt" second.1.1).1.2
  = Client.Returned "old" None ∧
  "old" ≠ "new".
Proof.
  intros w1 second. split_and!.
  - rewrite selectServers_take. change (take _ _) with demo_servers.
    repeat constructor; by vm_compute.
  - by vm_compute.
  - by vm_compute.
  - discriminate.
Qed.

(** C7 as worded fails on a file name with a space.  The record ["a b"]
    exists and lists no chunk: a create under the name ["a+b"] made it,
    a [+] in a query string being a space.  Reading ["a b"] pastes the
    space into the request line, the coordinator's HTTP server cannot
    parse that line and answers 400 before any handler runs, and
    [readFile] returns that status as an error. *)
Lemma empty_file_with_space_is_not_read :
  let w := (Client.createFile demo_env demo_client "a+b" demo_world).1.1 in
  Master.reachable (Client.coordinator w) ∧
  Master.files (Client.coordinator w) !! "a b" = Some (mkFileInfo "a b" [] 0) ∧
  (Client.readFile demo_join demo_env demo_client "a b" w).1.2
  = Client.Returned ""
      (Some (Client.Errorf "failed to get chunks with status 400")).
Proof.
  intros w. split_and!.
  - assert (Hw : Client.coordinator w
                 = (Master.step (Master.Create (http_Post "file" "a b" ""))
                      demo_master).1.1) by (vm_compute; reflexivity).
    rewrite Hw. apply Master.reachable_step.
    do 3 apply (Master.reachable_step (Master.Register _)).
    apply Master.reachable_new.
  - by vm_compute.
  - by vm_compute.
Qed.

(** The same for a name the query parser rejects: the record ["%zz"],
    made by a create under the name ["%25zz"], cannot be read back, the
    handler finding no [file] parameter at all. *)
Example empty_file_with_percent_is_not_read :
  let w := (Client.createFile demo_env demo_client "%25zz" demo_world).1.1 in
  Master.files (Client.coordinator w) !! "%zz" = Some (mkFileInfo "%zz" [] 0) ∧
  (Client.readFile demo_join demo_env demo_client "%zz" w).1.2
  = Client.Returned ""
      (Some (Client.Errorf "failed to get chunks with status 400")).
Proof. intros w. split; by vm_compute. Qed.

(** Why C1 asks for a URL-safe name: the coordinator sees ["a&b"] as
    ["a"].  After a write to ["a"], a first write to ["a&b"] succeeds on
    three healthy replicas, and the read of ["a&b"] that follows returns
    the data of ["a"]. *)
Example write_to_cut_name_is_not_read_back :
  let w1 := (Client.writeFile demo_join demo_env demo_client "a" "old"
               demo_world).1.1 in
  let second := Client.writeFile demo_join demo_env demo_client "a&b"
                  "new" w1 in
  Master.files (Client.coordinator w1) !! "a&b" = None ∧
  second.1.2 = None ∧
  (Client.readFile demo_join demo_env demo_client "a&b" second.1.1).1.2
  = Client.Returned "old" None.
Proof. intros w1 second. split_and!; by vm_compute. Qed.

Lemma write_succeeds_whatever_replicas_do_witness :
  ∃ w3 evs,
    Client.writeFile demo_join degraded_env demo_client "/hello.txt"
      "Hello, GFS World!" demo_world
    = (w3, None, evs) ∧
    client_trace evs
    = [Client.Call "localhost:8080" "/create";
       Client.Call "localhost:8080" "/allocate";
       Client.Call "localhost:8081" "/write";
       Client.Call "localhost:8082" "/write";
       Client.Log Client.AtClient (LogReplicaWriteFailed "localhost:8082");
       Client.Call "localhost:8083" "/write";
       Client.Log Client.AtClient (LogReplicaWriteFailed "localhost:8083");
       Client.Log Client.AtClient (LogWrote "/hello.txt" 17)].
Proof.
  destruct (write_succeeds_whatever_replicas_do demo_join degraded_env
              demo_client "/hello.txt" "Hello, GFS World!" demo_world
              {| Handle := "chunk_1"; Servers := demo_servers; Version := 1;
                 Size := 0; Primary := "localhost:8081";
                 LeaseEnd := 60 * Second |})
    as (w3 & evs3 & Hwrite & _ & Htrace).
  - vm_compute. reflexivity.
  - eexists _, _. split; [exact Hwrite|].
    rewrite !client_trace_app, Htrace. vm_compute. reflexivity.
Defined.

(** With the primary down instead, the write still reports success, and
    the read returns the body of the storage server's 404 as content. *)
Example read_after_failed_primary :
  let down_primary :=
    {| Client.master_up := true;
       Client.server_up := λ addr, negb (String.eqb addr "localhost:8081");
       Client.disk_write := λ _, Chunkserver.WriteOK; Client.now := 0 |} in
  let written := Client.writeFile demo_join down_primary demo_client
                   "/hello.txt" "Hello" demo_world in
  written.1.2 = None ∧
  (Client.readFile demo_join demo_env demo_client "/hello.txt" written.1.1).1.2
  = Client.Returned ("Chunk not found" +:+ newline) None.
Proof. split; by vm_compute. Qed.

(** ** Concurrent requests on one storage server *)

Section ConcurrentFacts.

Variable filepath_Join : string → string → string.

Import Concurrent.

Lemma occupancy_insert f (ts : list pc) i p p' :
  ts !! i = Some p →
  (occupancy f (<[i := p']> ts) + Nat.b2n (f p)
   = occupancy f ts + Nat.b2n (f p'))%nat.
Proof.
  unfold occupancy. revert i.
  induction ts as [|t ts IH]; intros i Hi; [done|].
  destruct i as [|i]; simpl in *.
  - injection Hi as ->. destruct (f p), (f p'); simpl; lia.
  - specialize (IH i Hi). destruct (f t); simpl; lia.
Qed.

Lemma occupancy_member f (ts : list pc) i p :
  ts !! i = Some p → f p = true → (1 ≤ occupancy f ts)%nat.
Proof.
  unfold occupancy. revert i.
  induction ts as [|t ts IH]; intros i Hi Hf; [done|].
  destruct i as [|i]; simpl in *.
  - injection Hi as ->. rewrite Hf. simpl. lia.
  - specialize (IH i Hi Hf). destruct (f t); simpl; lia.
Qed.

Lemma occupancy_at_start f (ts : list pc) :
  (∀ p, at_start p = true → f p = false) →
  Forall (λ p, at_start p = true) ts → occupancy f ts = 0%nat.
Proof.
  intros Hf. unfold occupancy. induction 1 as [|p ts Hp _ IH]; [done|].
  simpl. by rewrite (Hf p Hp).
Qed.

Lemma initial_lock_discipline c : initial c → lock_discipline c.
Proof.
  intros [Hmu Hts]. unfold lock_discipline. rewrite Hmu. simpl.
  split_and!; [| |done]; apply occupancy_at_start; try done;
    by intros [].
Qed.

Lemma schedule_lock_discipline i c c' :
  schedule filepath_Join i c = Some c' →
  lock_discipline c → lock_discipline c'.
Proof.
  destruct c as [s ts]. unfold schedule, lock_discipline. simpl.
  destruct (ts !! i) as [p|] eqn:Hp; [|done].
  destruct (thread_step filepath_Join p s) as [[p' s']|] eqn:Hts; [|done].
  intros [= <-] (Hw & Hr & Hwr). simpl.
  pose proof (occupancy_insert in_store_section ts i p p' Hp) as Hsw.
  pose proof (occupancy_insert in_retrieve_section ts i p p' Hp) as Hsr.
  pose proof (occupancy_member in_retrieve_section ts i p Hp) as Hmr.
  pose proof (occupancy_member in_store_section ts i p Hp) as Hmw.
  destruct s as [[w r] srv dsk]. simpl in *.
  destruct p; simpl in Hts;
    repeat match type of Hts with
           | (if ?b then _ else _) = _ => destruct b eqn:?
           | match ?x with _ => _ end = _ => destruct x eqn:?
           end;
    try discriminate; injection Hts as <- <-; simpl in *;
    repeat match goal with
           | H : _ || _ = false |- _ => apply orb_false_iff in H as [? ?]
           | H : negb _ = false |- _ => apply negb_false_iff in H
           | H : (_ =? _)%nat = true |- _ => apply Nat.eqb_eq in H
           end;
    subst; simpl in *;
    try (destruct w; simpl in *);
    split_and!; try lia; try done; try (intros; lia).
Qed.

Lemma reachable_lock_discipline c :
  reachable filepath_Join c → lock_discipline c.
Proof.
  induction 1 as [c Hinit | c c' _ IH Hstep].
  - by apply initial_lock_discipline.
  - destruct Hstep as [i c c' Hs]. by eapply schedule_lock_discipline.
Qed.

(** A thread inside a store section is the only one that can move: the
    others wait for the mutex or have finished. *)
Lemma store_section_alone c i pi k c' :
  lock_discipline c →
  c.2 !! i = Some pi → in_store_section pi = true →
  schedule filepath_Join k c = Some c' → k = i.
Proof.
  destruct c as [s ts]. unfold schedule, lock_discipline. simpl.
  intros (Hw & Hr & Hwr) Hi Hin Hk.
  destruct (ts !! k) as [pk|] eqn:Hpk; [|done].
  destruct (thread_step filepath_Join pk s) as [[p' s']|] eqn:Hts; [|done].
  pose proof (occupancy_member _ _ _ _ Hi Hin) as Hone.
  destruct (writer (mu s)) eqn:Hwriter; [|lia].
  specialize (Hwr eq_refl).
  destruct (decide (k = i)) as [|Hne]; [done|]. exfalso.
  destruct (in_store_section pk) eqn:Hks.
  - (* two threads in a store section *)
    pose proof (occupancy_insert in_store_section ts i pi (Finished (mkResponse 0 ""))
                  Hi) as Hdrop.
    rewrite Hin in Hdrop. simpl in Hdrop.
    assert (Hpk' : <[i := Finished (mkResponse 0 "")]> ts !! k = Some pk)
      by by rewrite list_lookup_insert_ne.
    pose proof (occupancy_member _ _ _ _ Hpk' Hks). lia.
  - destruct (in_retrieve_section pk) eqn:Hkr.
    + pose proof (occupancy_member _ _ _ _ Hpk Hkr). lia.
    + destruct pk; try discriminate; simpl in Hts; rewrite Hwriter in Hts;
        discriminate.
Qed.

(** C9.  On one storage server, whatever requests run concurrently and
    however they are scheduled: while a store request is between its
    [Lock] and its [Unlock], no retrieve request is between its [RLock]
    and its [RUnlock], and the only thread that can take a step is that
    store request itself.  So the statements of a store that touch the
    cache and the disk run as one block with respect to every retrieve. *)
Theorem store_serialized_with_retrieve c i pi :
  reachable filepath_Join c →
  c.2 !! i = Some pi → in_store_section pi = true →
  (∀ j pj, c.2 !! j = Some pj → in_retrieve_section pj = false) ∧
  (∀ k c', schedule filepath_Join k c = Some c' → k = i).
Proof.
  intros Hreach Hi Hin.
  pose proof (reachable_lock_discipline c Hreach) as Hinv.
  split.
  - intros j pj Hj. destruct (in_retrieve_section pj) eqn:Hr; [|done].
    destruct Hinv as (Hw & Hrd & Hwr).
    pose proof (occupancy_member _ _ _ _ Hi Hin).
    pose proof (occupancy_member _ _ _ _ Hj Hr).
    destruct (writer (mu c.1)); [|lia]. specialize (Hwr eq_refl). lia.
  - intros k c' Hk. by eapply store_section_alone.
Qed.

(** *** The steps of one request make up its handler *)

Lemma store_alone handle data outcome srv dsk :
  handle ≠ "" →
  run_alone filepath_Join 4 (WriteLock handle data outcome)
    (mkShared (mkRWMutex false 0) srv dsk)
  = (Finished (Chunkserver.handleWrite filepath_Join
                 (http_Post "chunk" handle data) outcome srv dsk).1.2,
     mkShared (mkRWMutex false 0)
       (Chunkserver.handleWrite filepath_Join
          (http_Post "chunk" handle data) outcome srv dsk).1.1.1
       (Chunkserver.handleWrite filepath_Join
          (http_Post "chunk" handle data) outcome srv dsk).1.1.2).
Proof.
  intros Hne. rewrite handleWrite_post by done. simpl.
  by destruct outcome as [|[partial|]].
Qed.

Lemma retrieve_alone handle srv dsk :
  handle ≠ "" →
  run_alone filepath_Join 5 (ReadRLock handle)
    (mkShared (mkRWMutex false 0) srv dsk)
  = (Finished (Chunkserver.handleRead filepath_Join
                 (http_Get "chunk" handle) srv dsk).1.2,
     mkShared (mkRWMutex false 0)
       (Chunkserver.handleRead filepath_Join
          (http_Get "chunk" handle) srv dsk).1.1.1
       (Chunkserver.handleRead filepath_Join
          (http_Get "chunk" handle) srv dsk).1.1.2).
Proof.
  intros Hne. unfold Chunkserver.handleRead. run_handler. simpl.
  destruct (Chunkserver.chunks srv !! handle) as [data|] eqn:Hmem; simpl;
    rewrite ?Hmem; [done|].
  by destruct (dsk !! filepath_Join (Chunkserver.dataDir srv) handle).
Qed.

End ConcurrentFacts.

Lemma store_serialized_with_retrieve_witness :
  let c0 := (Concurrent.mkShared (Concurrent.mkRWMutex false 0)
               (Chunkserver.NewChunkserver "localhost:8081" "localhost:8080") ∅,
             [Concurrent.WriteLock "chunk_1" "Hello" Chunkserver.WriteOK;
              Concurrent.ReadRLock "chunk_1"]) in
  let c1 := (Concurrent.mkShared (Concurrent.mkRWMutex true 0)
               (Chunkserver.NewChunkserver "localhost:8081" "localhost:8080") ∅,
             [Concurrent.WriteCache "chunk_1" "Hello" Chunkserver.WriteOK;
              Concurrent.ReadRLock "chunk_1"]) in
  Concurrent.schedule demo_join 0 c0 = Some c1 ∧
  Concurrent.schedule demo_join 1 c1 = None ∧
  Concurrent.in_retrieve_section (Concurrent.ReadRLock "chunk_1") = false ∧
  0%nat = 0%nat.
Proof.
  intros c0 c1.
  assert (Hstep : Concurrent.schedule demo_join 0 c0 = Some c1) by reflexivity.
  assert (Hreach : Concurrent.reachable demo_join c1).
  { apply (Concurrent.reachable_step demo_join c0 c1).
    - apply Concurrent.reachable_initial. split; [reflexivity|].
      repeat constructor.
    - by apply (Concurrent.step_thread demo_join 0%nat). }
  destruct (store_serialized_with_retrieve demo_join c1 0%nat
              (Concurrent.WriteCache "chunk_1" "Hello" Chunkserver.WriteOK)
              Hreach eq_refl eq_refl) as [Hexcl Halone].
  split_and!; [done | reflexivity | |].
  - apply (Hexcl 1%nat). reflexivity.
  - apply (Halone 0%nat (Concurrent.mkShared (Concurrent.mkRWMutex true 0)
               (Chunkserver.set_chunks {[ "chunk_1" := "Hello" ]}
                  (Chunkserver.NewChunkserver "localhost:8081" "localhost:8080")) ∅,
             [Concurrent.WriteDisk "chunk_1" "Hello" Chunkserver.WriteOK;
              Concurrent.ReadRLock "chunk_1"])).
    reflexivity.
Defined.

(** Two retrieves, by contrast, can be inside together: the read lock is
    shared, also while one of them fills the cache. *)
Example retrieves_overlap :
  let srv := Chunkserver.NewChunkserver "localhost:8081" "localhost:8080" in
  let dsk : gmap string string :=
    {[ demo_join (Chunkserver.dataDir srv) "chunk_1" := "Hello" ]} in
  let c0 := (Concurrent.mkShared (Concurrent.mkRWMutex false 0) srv dsk,
             [Concurrent.ReadRLock "chunk_1"; Concurrent.ReadRLock "chunk_1"]) in
  ∃ s, foldl (λ c i, c ≫= Concurrent.schedule demo_join i) (Some c0)
             [0; 1; 0; 1; 0; 1]%nat
       = Some (s, [Concurrent.ReadFill "chunk_1" "Hello";
                   Concurrent.ReadFill "chunk_1" "Hello"]).
Proof. eexists. vm_compute. reflexivity. Qed.

(** * Further properties of the code *)

(** ** How a request changes the coordinator *)

Lemma step_transition op m : transition m (Master.step op m).1.1.
Proof.
  destruct op as [r|r|r|r now]; simpl.
  - unfold Master.handleRegisterServer.
    destruct (negb _); [constructor|].
    destruct (String.eqb_spec (Query_Get r "server") "") as [|Hne]; [constructor|].
    destruct (Master.registered _ _) eqn:Hreg; [constructor|].
    simpl. apply transition_register; [done|].
    intros Hin%registered_elem. congruence.
  - unfold Master.handleCreateFile.
    destruct (negb _); [constructor|].
    destruct (String.eqb_spec (Query_Get r "file") "") as [|Hne]; [constructor|].
    destruct (Master.files m !! Query_Get r "file") eqn:Hf; [constructor|].
    simpl. by apply transition_create.
  - unfold Master.handleGetChunks.
    destruct (String.eqb _ _); [constructor|].
    destruct (Master.files m !! Query_Get r "file"); constructor.
  - unfold Master.handleAllocateChunk.
    destruct (negb _); [constructor|].
    destruct (String.eqb_spec (Query_Get r "file") "") as [|Hne]; [constructor|].
    destruct (Master.files m !! Query_Get r "file") as [file|] eqn:Hf;
      [|constructor].
    rewrite selectServers_take. simpl Master.servers.
    destruct (Master.servers m) as [|primary rest] eqn:Hs; simpl.
    + by eapply transition_burn.
    + pose proof (transition_allocate m _ file now primary rest Hne Hf Hs) as Ht.
      unfold allocated_state, allocated_chunk in Ht.
      unfold Master.set_files, Master.set_chunks, Master.set_nextChunk.
      simpl in Ht |- *. rewrite ?Hs in Ht |- *. exact Ht.
Qed.

Lemma run_ops_snoc ops op m :
  run_ops (ops ++ [op]) m = (Master.step op (run_ops ops m)).1.1.
Proof. unfold run_ops. by rewrite foldl_app. Qed.

(** Induction over runs, one transition at a time. *)
Lemma run_ops_ind (P : Master.t → Prop) m :
  P m → (∀ m1 m2, P m1 → transition m1 m2 → P m2) →
  ∀ ops, P (run_ops ops m).
Proof.
  intros Hm Hstep ops. induction ops as [|op ops IH] using rev_ind; [done|].
  rewrite run_ops_snoc. eapply Hstep; [exact IH | apply step_transition].
Qed.

Lemma reachable_run_ops ops m :
  Master.reachable m → Master.reachable (run_ops ops m).
Proof.
  intros Hm. induction ops as [|op ops IH] using rev_ind; [done|].
  rewrite run_ops_snoc. by apply Master.reachable_step.
Qed.

Lemma reachable_is_run m :
  Master.reachable m → ∃ p ops, m = run_ops ops (Master.NewMaster p).
Proof.
  induction 1 as [p | op m _ (p & ops & ->)].
  - by exists p, [].
  - exists p, (ops ++ [op]). by rewrite run_ops_snoc.
Qed.

(** ** Error answers of the coordinator *)

(** X1.  Whatever the request, an answer other than 200 comes with no log
    line and leaves the file table, the chunk table and the server list as
    they were; unless the answer is 503, the whole state is unchanged. *)
Theorem error_answer_leaves_tables op m :
  StatusCode (Master.step op m).1.2 ≠ StatusOK →
  Master.files (Master.step op m).1.1 = Master.files m ∧
  Master.chunks (Master.step op m).1.1 = Master.chunks m ∧
  Master.servers (Master.step op m).1.1 = Master.servers m ∧
  (Master.step op m).2 = [] ∧
  (StatusCode (Master.step op m).1.2 = StatusServiceUnavailable ∨
   (Master.step op m).1.1 = m).
Proof.
  destruct op as [r|r|r|r now]; simpl.
  - unfold Master.handleRegisterServer.
    destruct (negb _); [by auto 10|].
    destruct (String.eqb _ _); [by auto 10|].
    destruct (Master.registered _ _); simpl; intros H; by destruct H.
  - unfold Master.handleCreateFile.
    destruct (negb _); [by auto 10|].
    destruct (String.eqb _ _); [by auto 10|].
    destruct (Master.files m !! _); [by auto 10|].
    simpl. intros H. by destruct H.
  - unfold Master.handleGetChunks.
    destruct (String.eqb _ _); [by auto 10|].
    destruct (Master.files m !! _); by auto 10.
  - unfold Master.handleAllocateChunk.
    destruct (negb _); [by auto 10|].
    destruct (String.eqb _ _); [by auto 10|].
    destruct (Master.files m !! _); [|by auto 10].
    destruct (Master.selectServers _ _); simpl.
    + intros _. split_and!; try done. by left.
    + intros H. by destruct H.
Qed.

Lemma error_answer_leaves_tables_witness :
  let m := (Master.step (Master.Create (http_Post "file" "/hello.txt" ""))
              (Master.NewMaster 8080)).1.1 in
  let op := Master.Allocate (http_Post "file" "/hello.txt" "") 0 in
  Master.files (Master.step op m).1.1 = Master.files m ∧
  Master.chunks (Master.step op m).1.1 = Master.chunks m ∧
  Master.servers (Master.step op m).1.1 = Master.servers m ∧
  (Master.step op m).2 = [] ∧
  (StatusCode (Master.step op m).1.2 = StatusServiceUnavailable ∨
   (Master.step op m).1.1 = m).
Proof.
  intros m op. apply (error_answer_leaves_tables op m). vm_compute. discriminate.
Defined.

(** ** What only grows *)

Lemma transition_file_grows m m' f file :
  transition m m' → Master.files m !! f = Some file →
  ∃ file', Master.files m' !! f = Some file' ∧
           Name file' = Name file ∧ FileSize file' = FileSize file ∧
           Chunks file `prefix_of` Chunks file'.
Proof.
  intros Ht Hf.
  destruct Ht as [|s Hs Hnew|g Hg Hnone|g file0 Hg Hsome Hnil
                  |g file0 now primary rest Hg Hsome Hsrv]; simpl;
    try (by exists file).
  - exists file. rewrite lookup_insert_ne; [done|]. intros ->. congruence.
  - destruct (decide (g = f)) as [->|Hne].
    + rewrite lookup_insert_eq. eexists. split; [reflexivity|]. simpl.
      assert (file0 = file) as -> by congruence.
      split_and!; try done. by apply prefix_app_r.
    + rewrite lookup_insert_ne by done. by exists file.
Qed.

(** X2.  No request removes or resets a file record: after any sequence of
    requests the file is still known under the same name and size field,
    and its earlier chunk list is a prefix of the current one. *)
Theorem file_records_only_grow ops m f file :
  Master.files m !! f = Some file →
  ∃ file', Master.files (run_ops ops m) !! f = Some file' ∧
           Name file' = Name file ∧ FileSize file' = FileSize file ∧
           Chunks file `prefix_of` Chunks file'.
Proof.
  intros Hf. apply run_ops_ind; [by exists file|].
  intros m1 m2 (file1 & Hf1 & Hn1 & Hs1 & Hp1) Ht.
  destruct (transition_file_grows m1 m2 f file1 Ht Hf1)
    as (file2 & Hf2 & Hn2 & Hs2 & Hp2).
  exists file2. split_and!; try congruence. by etrans.
Qed.

Lemma file_records_only_grow_witness :
  let m := (Master.step (Master.Create (http_Post "file" "/hello.txt" ""))
              (Master.NewMaster 8080)).1.1 in
  let ops := [Master.Register (http_Post "server" "localhost:8081" "");
              Master.Create (http_Post "file" "/hello.txt" "");
              Master.Allocate (http_Post "file" "/hello.txt" "") 0] in
  ∃ file', Master.files (run_ops ops m) !! "/hello.txt" = Some file' ∧
           Name file' = "/hello.txt" ∧ FileSize file' = 0 ∧
           [] `prefix_of` Chunks file'.
Proof.
  intros m ops.
  apply (file_records_only_grow ops m "/hello.txt" (mkFileInfo "/hello.txt" [] 0)).
  vm_compute. reflexivity.
Defined.

Lemma transition_servers_grow m m' :
  transition m m' → Master.servers m `prefix_of` Master.servers m'.
Proof.
  destruct 1; simpl; try done. by apply prefix_app_r.
Qed.

Lemma run_ops_servers_grow ops m :
  Master.servers m `prefix_of` Master.servers (run_ops ops m).
Proof.
  apply run_ops_ind; [done|].
  intros m1 m2 H1 Ht. etrans; [exact H1|]. by apply transition_servers_grow.
Qed.

(** X3.  Servers are never dropped or reordered, so once as many servers
    as the replication factor are registered, every later allocation
    selects the same replicas: the first three that registered, however
    many register afterwards. *)
Theorem replica_selection_settles ops m :
  (ReplicationFactor ≤ length (Master.servers m))%nat →
  Master.servers m `prefix_of` Master.servers (run_ops ops m) ∧
  Master.selectServers (run_ops ops m) ReplicationFactor
  = Master.selectServers m ReplicationFactor ∧
  Master.selectServers m ReplicationFactor
  = take ReplicationFactor (Master.servers m).
Proof.
  intros Hlen. pose proof (run_ops_servers_grow ops m) as [more Hmore].
  split_and!; [by exists more| |apply selectServers_take].
  rewrite !selectServers_take, Hmore. by rewrite take_app_le.
Qed.

Lemma replica_selection_settles_witness :
  let ops := [Master.Register (http_Post "server" "localhost:8084" "");
              Master.Create (http_Post "file" "/hello.txt" "");
              Master.Allocate (http_Post "file" "/hello.txt" "") 0] in
  Master.servers demo_master `prefix_of` Master.servers (run_ops ops demo_master) ∧
  Master.selectServers (run_ops ops demo_master) ReplicationFactor
  = Master.selectServers demo_master ReplicationFactor ∧
  Master.selectServers demo_master ReplicationFactor
  = take ReplicationFactor (Master.servers demo_master).
Proof.
  intros ops. apply (replica_selection_settles ops demo_master).
  vm_compute. lia.
Defined.

(** ** The shape of the records *)

Lemma chunk_record_ok_servers m m' h c :
  Master.servers m `prefix_of` Master.servers m' →
  chunk_record_ok m h c → chunk_record_ok m' h c.
Proof.
  intros Hgrow [H1 H2 H3 H4 H5 H6 H7]. split; try done. by etrans.
Qed.

Lemma transition_chunk_records m m' :
  transition m m' →
  (∀ h c, Master.chunks m !! h = Some c → chunk_record_ok m h c) →
  ∀ h c, Master.chunks m' !! h = Some c → chunk_record_ok m' h c.
Proof.
  intros Ht Hinv h c.
  pose proof (transition_servers_grow m m' Ht) as Hgrow.
  destruct Ht as [|s Hs Hnew|g Hg Hnone|g file0 Hg Hsome Hnil
                  |g file0 now primary rest Hg Hsome Hsrv]; simpl in *;
    try (intros Hc; eapply chunk_record_ok_servers; [exact Hgrow|by apply Hinv]).
  rewrite lookup_insert. case_decide as Hk.
  - intros [= <-]. subst h. split; simpl; rewrite ?Hsrv; try done.
    + rewrite length_take. lia.
    + apply prefix_take.
  - intros Hc. eapply (chunk_record_ok_servers m); [exact Hgrow|by apply Hinv].
Qed.

(** X4.  In every reachable coordinator state, every record of the chunk
    table is filed under its own handle, has between one and three
    replicas, names the first of them as primary, lists only registered
    servers (a prefix of the registration list, hence pairwise distinct and
    non-empty addresses), and still has version 1 and size 0. *)
Theorem chunk_records_shape m h c :
  Master.reachable m →
  Master.chunks m !! h = Some c →
  chunk_record_ok m h c ∧ NoDup (Servers c) ∧ "" ∉ Servers c.
Proof.
  intros Hreach Hc.
  pose proof (reachable_well_formed m Hreach) as [_ Hnoempty Hnodup _].
  assert (Hok : chunk_record_ok m h c).
  { destruct (reachable_is_run m Hreach) as (p & ops & ->).
    revert h c Hc. apply (run_ops_ind (λ m, ∀ h c,
      Master.chunks m !! h = Some c → chunk_record_ok m h c)).
    - intros h c Hc. simpl in Hc. by rewrite lookup_empty in Hc.
    - intros m1 m2 Hinv Ht. by apply (transition_chunk_records m1 m2). }
  split_and!; [done| |].
  - destruct (cr_registered m h c Hok) as [more Hmore].
    rewrite Hmore in Hnodup. by apply NoDup_app in Hnodup as (? & _ & _).
  - intros Hin. apply Hnoempty.
    destruct (cr_registered m h c Hok) as [more ->].
    apply elem_of_app. by left.
Qed.

Lemma chunk_records_shape_witness :
  let m := run_ops [Master.Create (http_Post "file" "/hello.txt" "");
                    Master.Allocate (http_Post "file" "/hello.txt" "") 5]
                   demo_master in
  let c := {| Handle := "chunk_1"; Servers := demo_servers; Version := 1;
              Size := 0; Primary := "localhost:8081";
              LeaseEnd := 5 + 60 * Second |} in
  chunk_record_ok m "chunk_1" c ∧ NoDup (Servers c) ∧ "" ∉ Servers c.
Proof.
  intros m c. apply (chunk_records_shape m "chunk_1" c).
  - apply reachable_run_ops.
    do 3 apply (Master.reachable_step (Master.Register _)).
    apply Master.reachable_new.
  - vm_compute. reflexivity.
Defined.

Lemma transition_file_records m m' :
  transition m m' →
  (∀ f file, Master.files m !! f = Some file → file_record_ok f file) →
  ∀ f file, Master.files m' !! f = Some file → file_record_ok f file.
Proof.
  intros Ht Hinv f file.
  destruct Ht as [|s Hs Hnew|g Hg Hnone|g file0 Hg Hsome Hnil
                  |g file0 now primary rest Hg Hsome Hsrv]; simpl;
    try (by apply Hinv).
  - rewrite lookup_insert. case_decide; [|by apply Hinv].
    intros [= <-]. subst. by split.
  - rewrite lookup_insert. case_decide; [|by apply Hinv].
    intros [= <-]. subst. destruct (Hinv _ _ Hsome). by split.
Qed.

(** X5.  In every reachable coordinator state, a file record is filed
    under its own non-empty name and its size field is 0: no request ever
    updates the size, whatever was written. *)
Theorem file_records_shape m f file :
  Master.reachable m →
  Master.files m !! f = Some file →
  file_record_ok f file.
Proof.
  intros Hreach. destruct (reachable_is_run m Hreach) as (p & ops & ->).
  revert f file. apply (run_ops_ind (λ m, ∀ f file,
    Master.files m !! f = Some file → file_record_ok f file)).
  - intros f file Hf. simpl in Hf. by rewrite lookup_empty in Hf.
  - intros m1 m2 Hinv Ht. by apply (transition_file_records m1 m2).
Qed.

Lemma file_records_shape_witness :
  let m := run_ops [Master.Create (http_Post "file" "/hello.txt" "");
                    Master.Allocate (http_Post "file" "/hello.txt" "") 5]
                   demo_master in
  file_record_ok "/hello.txt" (mkFileInfo "/hello.txt" ["chunk_1"] 0).
Proof.
  intros m. apply (file_records_shape m).
  - apply reachable_run_ops.
    do 3 apply (Master.reachable_step (Master.Register _)).
    apply Master.reachable_new.
  - vm_compute. reflexivity.
Defined.

(** ** Before the counter wraps *)

Lemma int_incr_small n : 1 ≤ n < int_max → int_incr n = n + 1.
Proof.
  intros Hn. unfold int_incr. apply wrap_int_id.
  rewrite int_min_eq, int_max_eq in *. lia.
Qed.

Lemma young_new p : young (Master.NewMaster p).
Proof.
  split; simpl.
  - rewrite int_max_eq. lia.
  - intros h [c Hc]. by rewrite lookup_empty in Hc.
Qed.

Lemma young_fresh m k :
  young m → Master.nextChunk m ≤ k →
  Master.chunks m !! Master.chunkHandleOf k = None.
Proof.
  intros [_ Hpast] Hk.
  destruct (Master.chunks m !! Master.chunkHandleOf k) as [c|] eqn:Hc; [|done].
  destruct (Hpast _ (mk_is_Some _ _ Hc)) as (k' & Hk' & Heq).
  apply chunkHandleOf_inj in Heq. lia.
Qed.

Lemma transition_young m m' :
  young m → Master.nextChunk m < int_max → transition m m' →
  young m' ∧
  Master.nextChunk m ≤ Master.nextChunk m' ≤ Master.nextChunk m + 1 ∧
  (∀ h c, Master.chunks m !! h = Some c → Master.chunks m' !! h = Some c).
Proof.
  intros Hy Hlt Ht. pose proof Hy as [Hn Hpast].
  destruct Ht as [|s Hs Hnew|g Hg Hnone|g file0 Hg Hsome Hnil
                  |g file0 now primary rest Hg Hsome Hsrv]; simpl;
    rewrite ?int_incr_small by lia;
    try (split_and!; [done | lia | lia | done]).
  - split_and!; [split; simpl|lia|lia|done]; [lia|].
    intros h Hh. destruct (Hpast h Hh) as (k & Hk & ->). exists k. split; [lia|done].
  - split_and!; [split; simpl; rewrite ?int_incr_small by lia| | |].
    + lia.
    + intros h. rewrite lookup_insert. case_decide as Hk.
      * intros _. exists (Master.nextChunk m). split; [lia|done].
      * intros Hh. destruct (Hpast h Hh) as (k & Hk' & ->).
        exists k. split; [lia|done].
    + lia.
    + lia.
    + intros h c Hc. rewrite lookup_insert_ne; [done|].
      intros <-. rewrite young_fresh in Hc; [done|done|lia].
Qed.

Lemma run_ops_young ops : ∀ m,
  young m →
  Master.nextChunk m + Z.of_nat (length ops) ≤ int_max →
  young (run_ops ops m) ∧
  Master.nextChunk m ≤ Master.nextChunk (run_ops ops m)
    ≤ Master.nextChunk m + Z.of_nat (length ops) ∧
  (∀ h c, Master.chunks m !! h = Some c →
          Master.chunks (run_ops ops m) !! h = Some c).
Proof.
  induction ops as [|op ops IH] using rev_ind; intros m Hy Hlen.
  - simpl. split_and!; [done|lia|lia|done].
  - rewrite length_app in Hlen. simpl in Hlen.
    destruct (IH m Hy) as (Hy1 & Hn1 & Hkeep1); [lia|].
    rewrite run_ops_snoc.
    assert (Hlt : Master.nextChunk (run_ops ops m) < int_max) by lia.
    destruct (transition_young (run_ops ops m)
                (Master.step op (run_ops ops m)).1.1 Hy1 Hlt
                (step_transition op (run_ops ops m))) as (Hy2 & Hn2 & Hkeep2).
    rewrite length_app. simpl.
    split_and!; [done|lia|lia|]. intros h c Hc. by apply Hkeep2, Hkeep1.
Qed.

(** X6.  As long as the counter has not wrapped around, a chunk record
    is never changed once it is in the table: no later request alters its
    replica list, primary or lease, also not the registration of more
    servers.  In particular this holds for every run of fewer than
    [2^63 - 1] requests from a fresh coordinator. *)
Theorem chunk_records_never_change ops m h c :
  young m →
  Master.nextChunk m + Z.of_nat (length ops) ≤ int_max →
  Master.chunks m !! h = Some c →
  Master.chunks (run_ops ops m) !! h = Some c.
Proof.
  intros Hy Hlen Hc. by apply (run_ops_young ops m Hy Hlen).
Qed.

Lemma chunk_records_never_change_witness :
  let m := run_ops [Master.Register (http_Post "server" "localhost:8081" "");
                    Master.Create (http_Post "file" "/hello.txt" "");
                    Master.Allocate (http_Post "file" "/hello.txt" "") 5]
                   (Master.NewMaster 8080) in
  let ops := [Master.Register (http_Post "server" "localhost:8082" "");
              Master.Allocate (http_Post "file" "/hello.txt" "") 9] in
  Master.chunks (run_ops ops m) !! "chunk_1"
  = Some {| Handle := "chunk_1"; Servers := ["localhost:8081"]; Version := 1;
            Size := 0; Primary := "localhost:8081";
            LeaseEnd := 5 + 60 * Second |}.
Proof.
  intros m ops. apply (chunk_records_never_change ops m).
  - apply run_ops_young; [apply young_new|]. vm_compute. discriminate.
  - vm_compute. discriminate.
  - vm_compute. reflexivity.
Defined.

Lemma run_ops_handles_resolve ops m :
  handles_resolve m → handles_resolve (run_ops ops m).
Proof.
  intros Hm. induction ops as [|op ops IH] using rev_ind; [done|].
  rewrite run_ops_snoc. by apply step_handles_resolve.
Qed.

Lemma handles_owned_once_allocate m g file0 now primary :
  young m → handles_resolve m → handles_owned_once m →
  Master.files m !! g = Some file0 →
  handles_owned_once
    (allocated_state m g file0 (allocated_chunk m now primary)).
Proof.
  intros Hy Hres Hown Hsome.
  set (h0 := Master.chunkHandleOf (Master.nextChunk m)).
  assert (Hfresh : ∀ f file i, Master.files m !! f = Some file →
                               Chunks file !! i = Some h0 → False).
  { intros f file i Hf Hi.
    destruct (Hres f file h0 Hf) as [c Hc].
    { apply list_elem_of_lookup. eauto. }
    unfold h0 in Hc. rewrite young_fresh in Hc; [done|done|lia]. }
  assert (Hold : ∀ f file i h,
            Master.files (allocated_state m g file0
                            (allocated_chunk m now primary)) !! f = Some file →
            Chunks file !! i = Some h →
            (∃ file', Master.files m !! f = Some file' ∧ Chunks file' !! i = Some h)
            ∨ (f = g ∧ i = length (Chunks file0) ∧ h = h0)).
  { intros f file i h. simpl. rewrite lookup_insert. case_decide as Hk.
    - intros [= <-]. subst f. simpl. intros Hi.
      apply lookup_app_Some in Hi as [Hi | [Hlen Hi]].
      + left. eauto.
      + right. apply list_lookup_singleton_Some in Hi as [Hi <-].
        split_and!; [done|lia|done].
    - intros Hf Hi. left. eauto. }
  intros f1 file1 f2 file2 i j h Hf1 Hf2 Hi Hj.
  destruct (Hold _ _ _ _ Hf1 Hi) as [(file1' & Hf1' & Hi') | (E1 & E2 & E3)],
           (Hold _ _ _ _ Hf2 Hj) as [(file2' & Hf2' & Hj') | (E4 & E5 & E6)].
  - by eapply Hown.
  - rewrite E6 in Hi'. by destruct (Hfresh _ _ _ Hf1' Hi').
  - rewrite E3 in Hj'. by destruct (Hfresh _ _ _ Hf2' Hj').
  - by rewrite E1, E2, E4, E5.
Qed.

Lemma transition_owned_once m m' :
  young m → handles_resolve m → handles_owned_once m →
  transition m m' → handles_owned_once m'.
Proof.
  intros Hy Hres Hown Ht.
  destruct Ht as [|s Hs Hnew|g Hg Hnone|g file0 Hg Hsome Hnil
                  |g file0 now primary rest Hg Hsome Hsrv]; try done.
  - intros f1 file1 f2 file2 i j h. simpl. rewrite !lookup_insert.
    repeat case_decide; intros Hf1 Hf2 Hi Hj;
      try (injection Hf1 as <-); try (injection Hf2 as <-);
      simpl in *; try done.
    by eapply Hown.
  - by apply handles_owned_once_allocate.
Qed.

(** X7.  In every run of fewer than [2^63 - 1] requests from a fresh
    coordinator, no chunk handle is listed twice: not twice in the chunk
    list of one file, and not in the chunk lists of two files. *)
Theorem handles_never_shared p ops :
  Z.of_nat (length ops) < int_max →
  handles_owned_once (run_ops ops (Master.NewMaster p)).
Proof.
  induction ops as [|op ops IH] using rev_ind; intros Hlen.
  - intros f1 file1 f2 file2 i j h Hf1. simpl in Hf1.
    by rewrite lookup_empty in Hf1.
  - rewrite length_app in Hlen. simpl in Hlen. rewrite run_ops_snoc.
    destruct (run_ops_young ops (Master.NewMaster p) (young_new p))
      as (Hy & _ & _); [simpl; lia|].
    eapply transition_owned_once; [exact Hy | | apply IH; lia
                                  | apply step_transition].
    apply run_ops_handles_resolve, handles_resolve_new.
Qed.

Lemma handles_never_shared_witness :
  handles_owned_once
    (run_ops [Master.Register (http_Post "server" "localhost:8081" "");
              Master.Create (http_Post "file" "/hello.txt" "");
              Master.Create (http_Post "file" "/data.txt" "");
              Master.Allocate (http_Post "file" "/hello.txt" "") 5;
              Master.Allocate (http_Post "file" "/data.txt" "") 6;
              Master.Allocate (http_Post "file" "/hello.txt" "") 7]
       (Master.NewMaster 8080)).
Proof.
  apply (handles_never_shared 8080). vm_compute. reflexivity.
Defined.

(** ** Storing and retrieving on one storage server *)

(** X8.  A retrieve right after a store of the same non-empty handle
    answers 200 with exactly the bytes stored and changes nothing, whatever
    the server held before and however the disk write ended. *)
Theorem store_then_retrieve
    (filepath_Join : string → string → string) handle data outcome cs disk :
  handle ≠ "" →
  let stored := Chunkserver.handleWrite filepath_Join
                  (http_Post "chunk" handle data) outcome cs disk in
  Chunkserver.handleRead filepath_Join (http_Get "chunk" handle)
    stored.1.1.1 stored.1.1.2
  = (stored.1.1.1, stored.1.1.2, mkResponse StatusOK data, []).
Proof.
  intros Hne stored. subst stored. rewrite handleWrite_post by done.
  cbn [fst snd]. apply handleRead_hit; [done|]. simpl. apply lookup_insert_eq.
Qed.

Lemma store_then_retrieve_witness :
  let cs := Chunkserver.NewChunkserver "localhost:8081" "localhost:8080" in
  let stored := Chunkserver.handleWrite demo_join
                  (http_Post "chunk" "chunk_1" "Hello")
                  (Chunkserver.WriteFailed (Some "He")) cs ∅ in
  Chunkserver.handleRead demo_join (http_Get "chunk" "chunk_1")
    stored.1.1.1 stored.1.1.2
  = (stored.1.1.1, stored.1.1.2, mkResponse StatusOK "Hello", []).
Proof.
  intros cs.
  apply (store_then_retrieve demo_join "chunk_1" "Hello"
           (Chunkserver.WriteFailed (Some "He")) cs ∅).
  discriminate.
Defined.

(** X9.  Retrieving twice: whatever the request and the server's state,
    the second retrieve gives the same answer as the first and changes
    nothing; after a disk hit it is served from the cache. *)
Theorem retrieve_twice
    (filepath_Join : string → string → string) r cs disk :
  let first := Chunkserver.handleRead filepath_Join r cs disk in
  Chunkserver.handleRead filepath_Join r first.1.1.1 first.1.1.2
  = (first.1.1.1, first.1.1.2, first.1.2, []).
Proof.
  intros first. subst first. unfold Chunkserver.handleRead.
  destruct (String.eqb (Query_Get r "chunk") "") eqn:Hq; simpl;
    rewrite ?Hq; [done|].
  destruct (Chunkserver.chunks cs !! Query_Get r "chunk") as [data|] eqn:Hmem;
    simpl; rewrite ?Hq, ?Hmem; [done|].
  destruct (disk !! filepath_Join (Chunkserver.dataDir cs) (Query_Get r "chunk"))
    as [diskData|] eqn:Hdisk; simpl;
    rewrite ?Hq, ?Hmem, ?Hdisk, ?lookup_insert_eq; done.
Qed.

(** X10.  A restart empties the cache and keeps the disk.  After a store
    whose disk write succeeded, the restarted server answers a retrieve
    with the stored bytes and caches them again; after a disk write that
    failed leaving a partial file it answers with that partial content;
    after one that failed leaving no file it answers 404: a chunk that
    never reached the disk is lost. *)
Theorem restart_serves_the_disk
    (filepath_Join : string → string → string)
    address master cache handle data outcome disk :
  handle ≠ "" →
  let cs := Chunkserver.set_chunks cache
              (Chunkserver.NewChunkserver address master) in
  let stored := Chunkserver.handleWrite filepath_Join
                  (http_Post "chunk" handle data) outcome cs disk in
  let answer := Chunkserver.handleRead filepath_Join (http_Get "chunk" handle)
                  (Chunkserver.NewChunkserver address master) stored.1.1.2 in
  match outcome with
  | Chunkserver.WriteOK =>
      answer.1.2 = mkResponse StatusOK data ∧
      Chunkserver.chunks answer.1.1.1 !! handle = Some data
  | Chunkserver.WriteFailed (Some partial) =>
      answer.1.2 = mkResponse StatusOK partial
  | Chunkserver.WriteFailed None =>
      answer.1.2 = raw_Error "Chunk not found" StatusNotFound
  end.
Proof.
  intros Hne cs stored answer. subst answer stored cs.
  rewrite handleWrite_post by done. cbn [fst snd].
  unfold Chunkserver.handleRead. run_handler. simpl.
  rewrite lookup_empty.
  destruct outcome as [|[partial|]];
    rewrite ?lookup_insert_eq, ?lookup_delete_eq; simpl;
    rewrite ?lookup_insert_eq; done.
Qed.

Lemma restart_serves_the_disk_witness :
  let stored := Chunkserver.handleWrite demo_join
                  (http_Post "chunk" "chunk_1" "Hello") Chunkserver.WriteOK
                  (Chunkserver.set_chunks ∅
                     (Chunkserver.NewChunkserver "localhost:8081" "localhost:8080"))
                  ∅ in
  let answer := Chunkserver.handleRead demo_join (http_Get "chunk" "chunk_1")
                  (Chunkserver.NewChunkserver "localhost:8081" "localhost:8080")
                  stored.1.1.2 in
  answer.1.2 = mkResponse StatusOK "Hello" ∧
  Chunkserver.chunks answer.1.1.1 !! "chunk_1" = Some "Hello".
Proof.
  apply (restart_serves_the_disk demo_join "localhost:8081" "localhost:8080" ∅
           "chunk_1" "Hello" Chunkserver.WriteOK ∅).
  discriminate.
Defined.

(** X11.  A store does not change what a retrieve of another handle
    answers, provided the two handles are kept in different files of the
    data directory. *)
Theorem store_leaves_other_chunks
    (filepath_Join : string → string → string) handle other data outcome cs disk :
  handle ≠ "" → other ≠ handle →
  filepath_Join (Chunkserver.dataDir cs) other
    ≠ filepath_Join (Chunkserver.dataDir cs) handle →
  let stored := Chunkserver.handleWrite filepath_Join
                  (http_Post "chunk" handle data) outcome cs disk in
  (Chunkserver.handleRead filepath_Join (http_Get "chunk" other)
     stored.1.1.1 stored.1.1.2).1.2
  = (Chunkserver.handleRead filepath_Join (http_Get "chunk" other) cs disk).1.2.
Proof.
  intros Hne Hother Hpath stored. subst stored.
  rewrite handleWrite_post by done. cbn [fst snd].
  unfold Chunkserver.handleRead. rewrite Query_Get_get.
  destruct (String.eqb other ""); [done|]. simpl.
  rewrite lookup_insert_ne by done.
  destruct (Chunkserver.chunks cs !! other); [done|].
  destruct outcome as [|[partial|]];
    rewrite ?lookup_insert_ne, ?lookup_delete_ne by done;
    by destruct (disk !! filepath_Join (Chunkserver.dataDir cs) other).
Qed.

Lemma store_leaves_other_chunks_witness :
  let cs := Chunkserver.NewChunkserver "localhost:8081" "localhost:8080" in
  let disk : gmap string string :=
    {[ demo_join (Chunkserver.dataDir cs) "chunk_2" := "World" ]} in
  let stored := Chunkserver.handleWrite demo_join
                  (http_Post "chunk" "chunk_1" "Hello") Chunkserver.WriteOK
                  cs disk in
  (Chunkserver.handleRead demo_join (http_Get "chunk" "chunk_2")
     stored.1.1.1 stored.1.1.2).1.2
  = (Chunkserver.handleRead demo_join (http_Get "chunk" "chunk_2") cs disk).1.2.
Proof.
  intros cs disk.
  apply (store_leaves_other_chunks demo_join "chunk_1" "chunk_2" "Hello"
           Chunkserver.WriteOK cs disk); vm_compute; discriminate.
Defined.

(** ** Data directories *)

Lemma replaceColons_inj a b :
  occurs "_" a = false → occurs "_" b = false →
  Chunkserver.replaceColons a = Chunkserver.replaceColons b → a = b.
Proof.
  revert b. induction a as [|x a IH]; intros [|y b]; simpl; try done.
  intros Ha Hb. apply orb_false_iff in Ha as [Hx Ha], Hb as [Hy Hb].
  apply Ascii.eqb_neq in Hx, Hy.
  destruct (Ascii.eqb_spec x ":"), (Ascii.eqb_spec y ":"); subst;
    intros [= ]; subst; try done; f_equal; by apply IH.
Qed.

(** X12.  Two storage servers whose addresses differ and contain no
    underscore get different data directories. *)
Theorem data_directories_differ a b master master' :
  occurs "_" a = false → occurs "_" b = false →
  Chunkserver.dataDir (Chunkserver.NewChunkserver a master)
  = Chunkserver.dataDir (Chunkserver.NewChunkserver b master') →
  a = b.
Proof.
  intros Ha Hb. simpl. intros [= H]. by apply replaceColons_inj.
Qed.

Lemma data_directories_differ_witness :
  "localhost:8081" = "localhost:8081".
Proof.
  apply (data_directories_differ "localhost:8081" "localhost:8081"
           "localhost:8080" "localhost:9090"); reflexivity.
Defined.

(** With an underscore the directories can coincide. *)
Example data_directories_collide :
  Chunkserver.dataDir (Chunkserver.NewChunkserver "a:1" "localhost:8080")
  = Chunkserver.dataDir (Chunkserver.NewChunkserver "a_1" "localhost:8080").
Proof. reflexivity. Qed.

(** ** Starting a storage server *)

Lemma occurs_string_of_uint d :
  occurs ":" (NilEmpty.string_of_uint d) = false.
Proof. induction d; simpl; done. Qed.

Lemma occurs_Sprintf_d n : occurs ":" (Sprintf_d n) = false.
Proof.
  unfold Sprintf_d. destruct (Z.to_int n) as [d|d]; simpl;
    destruct d; simpl; try done; apply occurs_string_of_uint.
Qed.

Lemma strings_Split_nonempty s sep : strings_Split s sep ≠ [].
Proof.
  destruct s as [|a s]; simpl; [done|].
  destruct (Ascii.eqb a sep); [done|]. by destruct (strings_Split s sep).
Qed.

Lemma strings_Split_whole s sep :
  occurs sep s = false → strings_Split s sep = [s].
Proof.
  induction s as [|a s IH]; simpl; [done|].
  intros [Ha Hs]%orb_false_iff. rewrite Ha, IH by done. done.
Qed.

Lemma strings_Split_second s sep :
  strings_Split s sep !! 1%nat = None ↔ occurs sep s = false.
Proof.
  induction s as [|a s IH]; simpl; [done|].
  pose proof (strings_Split_nonempty s sep) as Hne.
  destruct (Ascii.eqb a sep); simpl.
  - destruct (strings_Split s sep); [done|]. simpl. split; discriminate.
  - destruct (strings_Split s sep) as [|p ps]; [done|]. simpl in *. exact IH.
Qed.

(** X13.  A storage server started on the address [main] builds from its
    port flag, ["localhost:<port>"], reaches [http.ListenAndServe] with
    [":<port>"], whatever happened to its registration attempts.  It
    then serves on that address if the address can be bound; if it
    cannot (the port is taken, or the number is no port), the process
    exits through [log.Fatal]. *)
Theorem start_listens_on_its_port ups port master m binds :
  int_min ≤ port ≤ int_max →
  let cs :=
    Chunkserver.NewChunkserver ("localhost:" +:+ Sprintf_d port) master in
  (Startup.start ups cs m).1.2 = Startup.Listening (":" +:+ Sprintf_d port) ∧
  Startup.listenAndServe binds (Startup.start ups cs m).1.2
  = if binds (":" +:+ Sprintf_d port)
    then Startup.Serving (":" +:+ Sprintf_d port)
    else Startup.FatalExit.
Proof.
  intros _ cs. subst cs.
  assert (Hstart :
    (Startup.start ups
       (Chunkserver.NewChunkserver ("localhost:" +:+ Sprintf_d port) master)
       m).1.2
    = Startup.Listening (":" +:+ Sprintf_d port)).
  { unfold Startup.start.
    destruct (Startup.registerLoop 5 0 ups _ m) as [[m' slept] logs].
    simpl Chunkserver.address.
    assert (Hsplit : strings_Split ("localhost:" +:+ Sprintf_d port) ":"
                     = ["localhost"; Sprintf_d port]).
    { simpl. by rewrite strings_Split_whole by apply occurs_Sprintf_d. }
    by rewrite Hsplit. }
  by rewrite Hstart.
Qed.

Lemma start_listens_on_its_port_witness :
  let cs := Chunkserver.NewChunkserver ("localhost:" +:+ Sprintf_d 8081)
              "localhost:8080" in
  let busy := λ on, negb (String.eqb on ":8081") in
  (Startup.start (λ _, true) cs (Master.NewMaster 8080)).1.2
  = Startup.Listening (":" +:+ Sprintf_d 8081) ∧
  Startup.listenAndServe busy
    (Startup.start (λ _, true) cs (Master.NewMaster 8080)).1.2
  = if busy (":" +:+ Sprintf_d 8081)
    then Startup.Serving (":" +:+ Sprintf_d 8081)
    else Startup.FatalExit.
Proof.
  intros cs busy.
  apply (start_listens_on_its_port (λ _, true) 8081 "localhost:8080"
           (Master.NewMaster 8080) busy).
  rewrite int_min_eq, int_max_eq. lia.
Defined.

(** X14.  [start] dies in [strings.Split(cs.address, ":")[1]] exactly when
    the address contains no colon; with a colon it reaches the point where
    it serves. *)
Theorem start_panics_without_colon ups cs m :
  (Startup.start ups cs m).1.2 = Startup.StartPanicked
  ↔ occurs ":" (Chunkserver.address cs) = false.
Proof.
  unfold Startup.start.
  destruct (Startup.registerLoop 5 0 ups cs m) as [[m' slept] logs].
  rewrite <- strings_Split_second.
  destruct (strings_Split (Chunkserver.address cs) ":" !! 1%nat); simpl;
    split; done.
Qed.

Lemma registerLoop_wait ups cs n : ∀ fuel i m,
  (∀ j : nat, (j < n)%nat → ups (i + Z.of_nat j) = false) →
  Startup.registerLoop (n + fuel) i ups cs m
  = ((Startup.registerLoop fuel (i + Z.of_nat n) ups cs m).1.1,
     Z.of_nat n * (2 * Second)
     + (Startup.registerLoop fuel (i + Z.of_nat n) ups cs m).1.2,
     failed_rounds (Chunkserver.master cs) i n
     ++ (Startup.registerLoop fuel (i + Z.of_nat n) ups cs m).2).
Proof.
  induction n as [|n IH]; intros fuel i m Hdown.
  - simpl. rewrite Z.add_0_r.
    by destruct (Startup.registerLoop fuel i ups cs m) as [[m' slept] logs].
  - cbn [Nat.add Startup.registerLoop].
    pose proof (Hdown 0%nat ltac:(lia)) as H0. rewrite Z.add_0_r in H0.
    unfold Startup.registerWithMaster at 1. rewrite H0.
    rewrite (IH fuel (i + 1) m); cycle 1.
    { intros j Hj. rewrite <- (Hdown (S j)) by lia. f_equal. lia. }
    replace (i + 1 + Z.of_nat n) with (i + Z.of_nat (S n)) by lia.
    destruct (Startup.registerLoop fuel (i + Z.of_nat (S n)) ups cs m)
      as [[m' slept] logs].
    cbn [fst snd app]. f_equal; [f_equal; lia|].
    unfold failed_rounds. cbn [seq map]. rewrite Z.add_0_r.
    rewrite <- seq_shift, map_map. cbn [app]. do 2 f_equal.
    apply map_ext. intros j. f_equal. lia.
Qed.

(** X15.  If the coordinator cannot be reached in the first [k] rounds
    ([k < 5]) and answers in the next one, the storage server (with a
    non-empty address) has slept [k] times two seconds, has made no
    further attempt, and is in the coordinator's server list, the
    coordinator's state being that of one registration.  Its log shows
    the [k] failed attempts and then the one success, nothing after. *)
Theorem start_registers_at_first_answer ups cs m (k : nat) :
  Chunkserver.address cs ≠ "" →
  (k < 5)%nat →
  (∀ j : nat, (j < k)%nat → ups (Z.of_nat j) = false) →
  ups (Z.of_nat k) = true →
  (Startup.start ups cs m).1.1.1
  = (Master.handleRegisterServer
       (http_Post "server" (Chunkserver.address cs) "") m).1.1 ∧
  Chunkserver.address cs ∈ Master.servers (Startup.start ups cs m).1.1.1 ∧
  (Startup.start ups cs m).1.1.2 = Z.of_nat k * (2 * Second) ∧
  (Startup.registerLoop 5 0 ups cs m).2
  = failed_rounds (Chunkserver.master cs) 0 k
    ++ [Startup.LogRegisteredWithMaster (Chunkserver.master cs)].
Proof.
  intros Haddr Hk Hdown Hup.
  assert (Hloop : Startup.registerLoop 5 0 ups cs m
          = ((Master.handleRegisterServer
                (http_Post "server" (Chunkserver.address cs) "") m).1.1,
             Z.of_nat k * (2 * Second),
             failed_rounds (Chunkserver.master cs) 0 k
             ++ [Startup.LogRegisteredWithMaster (Chunkserver.master cs)])).
  { replace 5%nat with (k + S (4 - k))%nat by lia.
    rewrite registerLoop_wait by (intros j Hj; by apply Hdown).
    cbn [Startup.registerLoop]. unfold Startup.registerWithMaster.
    rewrite Z.add_0_l, Hup, register_post by done.
    destruct (Master.registered _ _); simpl; by rewrite Z.add_0_r. }
  unfold Startup.start. rewrite Hloop.
  assert (Hin : Chunkserver.address cs
                ∈ Master.servers
                    (Master.handleRegisterServer
                       (http_Post "server" (Chunkserver.address cs) "") m).1.1).
  { rewrite register_post by done.
    destruct (Master.registered _ _) eqn:Hreg; simpl.
    - by apply registered_elem.
    - apply elem_of_app. right. by left. }
  by destruct (strings_Split (Chunkserver.address cs) ":" !! 1%nat).
Qed.

Lemma start_registers_at_first_answer_witness :
  let cs := Chunkserver.NewChunkserver "localhost:8081" "localhost:8080" in
  let ups := λ i, 2 <=? i in
  let m := Master.NewMaster 8080 in
  (Startup.start ups cs m).1.1.1
  = (Master.handleRegisterServer
       (http_Post "server" (Chunkserver.address cs) "") m).1.1 ∧
  Chunkserver.address cs ∈ Master.servers (Startup.start ups cs m).1.1.1 ∧
  (Startup.start ups cs m).1.1.2 = Z.of_nat 2 * (2 * Second) ∧
  (Startup.registerLoop 5 0 ups cs m).2
  = failed_rounds (Chunkserver.master cs) 0 2
    ++ [Startup.LogRegisteredWithMaster (Chunkserver.master cs)].
Proof.
  intros cs ups m.
  apply (start_registers_at_first_answer ups cs m 2).
  - discriminate.
  - lia.
  - intros [|[|j]] Hj; [reflexivity | reflexivity | lia].
  - reflexivity.
Defined.

(** X16.  If the coordinator cannot be reached in any of the five rounds,
    the storage server gives up after sleeping ten seconds, the
    coordinator never hears of it, and start-up goes on to the listening
    step all the same. *)
Theorem start_gives_up_after_five ups cs m :
  (∀ j : nat, (j < 5)%nat → ups (Z.of_nat j) = false) →
  (Startup.start ups cs m).1.1.1 = m ∧
  (Startup.start ups cs m).1.1.2 = 10 * Second ∧
  (Startup.start ups cs m).1.2
  = match strings_Split (Chunkserver.address cs) ":" !! 1%nat with
    | Some port => Startup.Listening (":" +:+ port)
    | None => Startup.StartPanicked
    end.
Proof.
  intros Hdown. unfold Startup.start.
  replace 5%nat with (5 + 0)%nat by done.
  rewrite registerLoop_wait by done. cbn [Startup.registerLoop fst snd].
  by destruct (strings_Split (Chunkserver.address cs) ":" !! 1%nat).
Qed.

Lemma start_gives_up_after_five_witness :
  let cs := Chunkserver.NewChunkserver "localhost:8081" "localhost:8080" in
  let m := Master.NewMaster 8080 in
  (Startup.start (λ _, false) cs m).1.1.1 = m ∧
  (Startup.start (λ _, false) cs m).1.1.2 = 10 * Second ∧
  (Startup.start (λ _, false) cs m).1.2 = Startup.Listening ":8081".
Proof.
  intros cs m. apply (start_gives_up_after_five (λ _, false) cs m).
  intros j Hj. reflexivity.
Defined.

(** ** When a write succeeds *)

Section ClientMore.

Variable filepath_Join : string → string → string.

Lemma world_eta (w : Client.World) :
  {| Client.coordinator := Client.coordinator w; Client.nodes := Client.nodes w |}
  = w.
Proof. by destruct w. Qed.

Lemma created_lookup m filename :
  Master.files (created m filename) !! filename
  = Some (record_of m filename).
Proof.
  unfold created, record_of.
  destruct (Master.files m !! filename) eqn:Hf; simpl; [done|].
  apply lookup_insert_eq.
Qed.

Lemma created_servers m filename :
  Master.servers (created m filename) = Master.servers m.
Proof. unfold created. by destruct (Master.files m !! filename). Qed.

Lemma createFile_world env c filename w :
  Client.master_up env = true → url_safe filename = true → filename ≠ "" →
  (Client.createFile env c filename w).1.1
  = {| Client.coordinator := created (Client.coordinator w) filename;
       Client.nodes := Client.nodes w |}.
Proof.
  intros Hup Hsafe Hne. unfold Client.createFile, created.
  rewrite ask_master_post by done.
  rewrite call_master_up by done. rewrite create_post by done.
  by destruct (Master.files (Client.coordinator w) !! filename).
Qed.

Lemma writeFile_down env c filename data w :
  Client.master_up env = false → url_safe filename = true →
  Client.writeFile filepath_Join env c filename data w
  = (w, Some (Client.TransportFailure (Client.master c)),
     [Client.Call (Client.master c) "/create";
      Client.Call (Client.master c) "/allocate"]).
Proof.
  intros Hup Hsafe. unfold Client.writeFile, Client.createFile.
  rewrite ask_master_post, call_master_down by done. cbn iota.
  by rewrite ask_master_post, call_master_down by done.
Qed.

Lemma writeFile_unnamed env c data w :
  Client.master_up env = true →
  (Client.writeFile filepath_Join env c "" data w).1
  = (w, Some (Client.Errorf "chunk allocation failed with status 400")).
Proof.
  intros Hup. unfold Client.writeFile, Client.createFile.
  rewrite ask_master_post, call_master_up by done.
  unfold Master.handleCreateFile. rewrite Query_Get_post. simpl.
  rewrite ask_master_post, call_master_up by done.
  unfold Master.handleAllocateChunk. rewrite Query_Get_post. simpl.
  by rewrite world_eta.
Qed.

Lemma writeFile_starved env c filename data w :
  Client.master_up env = true → url_safe filename = true → filename ≠ "" →
  Master.servers (Client.coordinator w) = [] →
  (Client.writeFile filepath_Join env c filename data w).1
  = ({| Client.coordinator :=
          Master.set_nextChunk
            (int_incr (Master.nextChunk (Client.coordinator w)))
            (created (Client.coordinator w) filename);
        Client.nodes := Client.nodes w |},
     Some (Client.Errorf "chunk allocation failed with status 503")).
Proof.
  intros Hup Hsafe Hne Hnil. unfold Client.writeFile.
  pose proof (createFile_world env c filename w Hup Hsafe Hne) as Hcreated.
  destruct (Client.createFile env c filename w) as [[w1 e1] evs1].
  simpl in Hcreated. subst w1.
  rewrite ask_master_post by done.
  rewrite call_master_up by done. cbn [Client.coordinator Client.nodes].
  rewrite (allocate_post_empty filename (record_of (Client.coordinator w) filename));
    [|done|apply created_lookup|by rewrite created_servers].
  simpl. do 3 f_equal. unfold created.
  by destruct (Master.files (Client.coordinator w) !! filename).
Qed.

Lemma writeFile_served env c filename data w primary rest :
  Client.master_up env = true → url_safe filename = true → filename ≠ "" →
  Master.servers (Client.coordinator w) = primary :: rest →
  let m1 := created (Client.coordinator w) filename in
  let chunk := allocated_chunk m1 (Client.now env) primary in
  (Client.writeFile filepath_Join env c filename data w).1
  = ((Client.writeReplicas filepath_Join env (Handle chunk) data (Servers chunk)
        {| Client.coordinator :=
             allocated_state m1 filename
               (record_of (Client.coordinator w) filename) chunk;
           Client.nodes := Client.nodes w |}).1,
     None).
Proof.
  intros Hup Hsafe Hne Hsrv m1 chunk. unfold Client.writeFile.
  pose proof (createFile_world env c filename w Hup Hsafe Hne) as Hcreated.
  destruct (Client.createFile env c filename w) as [[w1 e1] evs1].
  simpl in Hcreated. subst w1.
  rewrite ask_master_post by done.
  rewrite call_master_up by done. cbn [Client.coordinator Client.nodes].
  rewrite (allocate_post_ok filename
             (record_of (Client.coordinator w) filename) _ _ primary rest);
    [|done|apply created_lookup|by rewrite created_servers].
  cbn [fst snd StatusCode RespBody Z.eqb negb StatusOK Pos.eqb].
  fold m1. fold chunk.
  by destruct (Client.writeReplicas _ _ _ _ _ _) as [w3 evs3].
Qed.

(** X17.  A write to a file whose name is made of URL-safe characters
    returns no error exactly when the coordinator answers, the file
    name is not empty and at least one storage server is registered;
    nothing about the storage servers themselves or the data matters. *)
Theorem write_succeeds_iff env c filename data w :
  url_safe filename = true →
  (Client.writeFile filepath_Join env c filename data w).1.2 = None
  ↔ Client.master_up env = true ∧ filename ≠ "" ∧
    Master.servers (Client.coordinator w) ≠ [].
Proof.
  intros Hsafe.
  destruct (Client.master_up env) eqn:Hup; cycle 1.
  { rewrite writeFile_down by done. simpl. split; [done|]. by intros (? & _). }
  destruct (String.eqb_spec filename "") as [->|Hne].
  { pose proof (writeFile_unnamed env c data w Hup) as H.
    destruct (Client.writeFile _ _ _ _ _ _) as [[w' e] evs]. simpl in *.
    injection H as _ ->. split; [done|]. by intros (_ & ? & _). }
  destruct (Master.servers (Client.coordinator w)) as [|primary rest] eqn:Hsrv.
  - pose proof (writeFile_starved env c filename data w Hup Hsafe Hne Hsrv)
      as H.
    destruct (Client.writeFile _ _ _ _ _ _) as [[w' e] evs]. simpl in *.
    injection H as _ ->. split; [done|]. by intros (_ & _ & ?).
  - pose proof (writeFile_served env c filename data w primary rest
                  Hup Hsafe Hne Hsrv) as H.
    destruct (Client.writeFile _ _ _ _ _ _) as [[w' e] evs]. simpl in *.
    injection H as _ ->. done.
Qed.

(** X18.  A write to an unknown file, its name made of URL-safe
    characters, that fails for lack of storage servers is not undone:
    the empty file record stays, a handle number is used up, and a read
    right after returns empty content and no error instead of "not
    found". *)
Theorem starved_write_leaves_empty_file env c filename data w :
  Client.master_up env = true → url_safe filename = true → filename ≠ "" →
  Master.files (Client.coordinator w) !! filename = None →
  Master.servers (Client.coordinator w) = [] →
  let written := Client.writeFile filepath_Join env c filename data w in
  written.1.2 = Some (Client.Errorf "chunk allocation failed with status 503") ∧
  Master.files (Client.coordinator written.1.1) !! filename
  = Some (mkFileInfo filename [] 0) ∧
  Master.nextChunk (Client.coordinator written.1.1)
  = int_incr (Master.nextChunk (Client.coordinator w)) ∧
  (Client.readFile filepath_Join env c filename written.1.1).1
  = (written.1.1, Client.Returned "" None).
Proof.
  intros Hup Hsafe Hne Hnone Hnil written. subst written.
  pose proof (writeFile_starved env c filename data w Hup Hsafe Hne Hnil) as H.
  destruct (Client.writeFile _ _ _ _ _ _) as [[w' e] evs]. simpl in *.
  injection H as -> ->.
  assert (Hf : Master.files (created (Client.coordinator w) filename) !! filename
               = Some (mkFileInfo filename [] 0)).
  { rewrite created_lookup. unfold record_of. by rewrite Hnone. }
  split_and!; try done.
  unfold Client.readFile. rewrite ask_master_get by done.
  rewrite call_master_up by done.
  cbn [Client.coordinator].
  by rewrite (getChunks_get filename (mkFileInfo filename [] 0)) by done.
Qed.

End ClientMore.

Lemma write_succeeds_iff_witness :
  (Client.writeFile demo_join demo_env demo_client "/hello.txt"
     "Hello, GFS World!" demo_world).1.2 = None
  ↔ Client.master_up demo_env = true ∧ "/hello.txt" ≠ "" ∧
    Master.servers (Client.coordinator demo_world) ≠ [].
Proof.
  apply (write_succeeds_iff demo_join demo_env demo_client "/hello.txt"
           "Hello, GFS World!" demo_world).
  reflexivity.
Defined.

Lemma starved_write_leaves_empty_file_witness :
  let w := {| Client.coordinator := Master.NewMaster 8080; Client.nodes := ∅ |} in
  let written := Client.writeFile demo_join demo_env demo_client
                   "/hello.txt" "Hello" w in
  written.1.2 = Some (Client.Errorf "chunk allocation failed with status 503") ∧
  Master.files (Client.coordinator written.1.1) !! "/hello.txt"
  = Some (mkFileInfo "/hello.txt" [] 0) ∧
  Master.nextChunk (Client.coordinator written.1.1) = int_incr 1 ∧
  (Client.readFile demo_join demo_env demo_client "/hello.txt" written.1.1).1
  = (written.1.1, Client.Returned "" None).
Proof.
  intros w.
  apply (starved_write_leaves_empty_file demo_join demo_env demo_client
           "/hello.txt" "Hello" w); try reflexivity.
  discriminate.
Defined.

(** ** What a read does and does not do *)

Lemma reachable_handles_resolve m : Master.reachable m → handles_resolve m.
Proof.
  induction 1; [apply handles_resolve_new | by apply step_handles_resolve].
Qed.

Lemma getChunks_state r m : (Master.handleGetChunks r m).1.1 = m.
Proof.
  unfold Master.handleGetChunks. destruct (String.eqb _ _); [done|].
  by destruct (Master.files m !! _).
Qed.

(** What the read handler does to a storage server: nothing, or one
    new cache entry taken from the chunk's file. *)
Lemma handleRead_effect (filepath_Join : string → string → string) r cs disk :
  (Chunkserver.handleRead filepath_Join r cs disk).1.1 = (cs, disk) ∨
  ∃ h d,
    Chunkserver.chunks cs !! h = None ∧
    disk !! filepath_Join (Chunkserver.dataDir cs) h = Some d ∧
    (Chunkserver.handleRead filepath_Join r cs disk).1.1
    = (Chunkserver.set_chunks (<[h := d]> (Chunkserver.chunks cs)) cs, disk).
Proof.
  unfold Chunkserver.handleRead. destruct (String.eqb _ _); [by left|].
  destruct (Chunkserver.chunks cs !! Query_Get r "chunk") eqn:Hmem; [by left|].
  destruct (disk !! _) as [d|] eqn:Hdisk; [|by left].
  right. by exists (Query_Get r "chunk"), d.
Qed.

Section ClientReads.

Variable filepath_Join : string → string → string.

(** The world after a read is the old one, or the old one with one new
    cache entry at one node. *)
Lemma readFile_effect env c filename w :
  (Client.readFile filepath_Join env c filename w).1.1 = w ∨
  ∃ addr n h d,
    Client.nodes w !! addr = Some n ∧
    Chunkserver.chunks (Client.server n) !! h = None ∧
    Client.disk n
      !! filepath_Join (Chunkserver.dataDir (Client.server n)) h = Some d ∧
    (Client.readFile filepath_Join env c filename w).1.1
    = {| Client.coordinator := Client.coordinator w;
         Client.nodes :=
           <[addr := {| Client.server :=
                          Chunkserver.set_chunks
                            (<[h := d]> (Chunkserver.chunks (Client.server n)))
                            (Client.server n);
                        Client.disk := Client.disk n |}]>
             (Client.nodes w) |}.
Proof.
  unfold Client.readFile.
  destruct (ask_master_cases env c "GET" "/chunks" "file" filename
              Master.handleGetChunks w) as [[evs ->] | [-> | [r ->]]];
    [by left|by left|].
  destruct (Client.master_up env) eqn:Hup; cycle 1.
  { rewrite call_master_down by done. by left. }
  rewrite call_master_up by done. rewrite getChunks_state, world_eta.
  destruct (negb _); [by left|].
  destruct (RespBody _) as [s|ch|[|[chunk|] chunks]]; try by left.
  destruct (Servers chunk) as [|first others]; [by left|].
  destruct (call_server_cases env first "/read"
    (Chunkserver.handleRead filepath_Join (http_Get "chunk" (Handle chunk))) w)
    as [(_ & n & Hn & ->) | (_ & ->)]; [|by left].
  destruct (handleRead_effect filepath_Join (http_Get "chunk" (Handle chunk))
              (Client.server n) (Client.disk n))
    as [Hsame | (h & d & Hmem & Hdisk & Hfill)].
  - left. simpl.
    destruct (Chunkserver.handleRead _ _ _ _) as [[[cs' disk'] resp] logs].
    simpl in Hsame. injection Hsame as -> ->. cbn [fst snd].
    replace {| Client.server := Client.server n; Client.disk := Client.disk n |}
      with n by (by destruct n).
    rewrite insert_id by done. by destruct w.
  - right. exists first, n, h, d. split_and!; try done.
    destruct (Chunkserver.handleRead _ _ _ _) as [[[cs' disk'] resp] logs].
    simpl in Hfill. injection Hfill as -> ->. done.
Qed.

(** X19.  A read leaves the coordinator and every storage server as they
    were, or it adds one entry to the cache of one storage server: an
    entry that was not there, for a chunk whose file is in that server's
    data directory, with that file's content.  In both cases the
    coordinator, every disk, every other storage server, and the
    address, coordinator address and data directory of the server read
    from stay as they were, and no cache loses or changes an entry. *)
Theorem read_only_fills_caches env c filename w :
  let w' := (Client.readFile filepath_Join env c filename w).1.1 in
  w' = w ∨
  ∃ addr n h d,
    Client.nodes w !! addr = Some n ∧
    Chunkserver.chunks (Client.server n) !! h = None ∧
    Client.disk n
      !! filepath_Join (Chunkserver.dataDir (Client.server n)) h = Some d ∧
    w' = {| Client.coordinator := Client.coordinator w;
            Client.nodes :=
              <[addr := {| Client.server :=
                             {| Chunkserver.address :=
                                  Chunkserver.address (Client.server n);
                                Chunkserver.chunks :=
                                  <[h := d]>
                                    (Chunkserver.chunks (Client.server n));
                                Chunkserver.master :=
                                  Chunkserver.master (Client.server n);
                                Chunkserver.dataDir :=
                                  Chunkserver.dataDir (Client.server n) |};
                           Client.disk := Client.disk n |}]>
                (Client.nodes w) |}.
Proof.
  intros w'. subst w'.
  destruct (readFile_effect env c filename w)
    as [Hsame | (addr & n & h & d & Hn & Hmem & Hdisk & Hfill)]; [by left|].
  right. by exists addr, n, h, d.
Qed.

(** X20.  With a coordinator in a reachable state, a read never runs into
    the nil chunk pointer: it always returns, with content or with an
    error. *)
Theorem read_never_panics env c filename w :
  Master.reachable (Client.coordinator w) →
  ∃ content err,
    (Client.readFile filepath_Join env c filename w).1.2
    = Client.Returned content err.
Proof.
  intros Hreach. pose proof (reachable_handles_resolve _ Hreach) as Hres.
  unfold Client.readFile.
  destruct (ask_master_cases env c "GET" "/chunks" "file" filename
              Master.handleGetChunks w) as [[evs ->] | [-> | [r ->]]];
    [simpl; eauto|simpl; eauto|].
  destruct (Client.master_up env) eqn:Hup; cycle 1.
  { rewrite call_master_down by done. simpl. eauto. }
  rewrite call_master_up by done.
  unfold Master.handleGetChunks.
  destruct (String.eqb _ _); [simpl; eauto|].
  destruct (Master.files (Client.coordinator w) !! _) as [file|] eqn:Hf;
    [|simpl; eauto].
  cbn [fst snd StatusCode RespBody Z.eqb negb StatusOK Pos.eqb].
  destruct (Chunks file) as [|h rest] eqn:Hchunks; [simpl; eauto|].
  cbn [map].
  destruct (Hres _ file h Hf) as [chunk Hchunk].
  { rewrite Hchunks. by left. }
  rewrite Hchunk.
  destruct (Servers chunk) as [|first others]; [simpl; eauto|].
  destruct (Client.call_server _ _ _ _ _) as [[w2 [resp|]] evs2]; simpl; eauto.
Qed.

End ClientReads.

Lemma read_never_panics_witness :
  ∃ content err,
    (Client.readFile demo_join demo_env demo_client "/hello.txt"
       (Client.writeFile demo_join demo_env demo_client "/hello.txt" "Hello"
          demo_world).1.1).1.2
    = Client.Returned content err.
Proof.
  apply (read_never_panics demo_join demo_env demo_client "/hello.txt").
  assert (Hw : Client.coordinator
                 (Client.writeFile demo_join demo_env demo_client "/hello.txt"
                    "Hello" demo_world).1.1
               = (Master.step
                    (Master.Allocate (http_Post "file" "/hello.txt" "") 0)
                    (Master.step
                       (Master.Create (http_Post "file" "/hello.txt" ""))
                       demo_master).1.1).1.1) by (vm_compute; reflexivity).
  rewrite Hw. do 2 apply Master.reachable_step.
  do 3 apply (Master.reachable_step (Master.Register _)).
  apply Master.reachable_new.
Defined.

(** ** The first write wins *)



Section FirstWriteWins.

Variable filepath_Join : string → string → string.








Lemma readable_read env c p h s d w :
  url_safe p = true → p ≠ "" →
  Client.master_up env = true → Client.server_up env s = true →
  readable_at w p h s d →
  (Client.readFile filepath_Join env c p w).1
  = (w, Client.Returned d None).
Proof.
  intros Hsafe Hp Hup Hsup
    (Hh & (file & rest & Hf & Hchunks) & (ch & more & Hc & Hhc & Hs)
     & (n & Hn & Hdata)).
  unfold Client.readFile. rewrite ask_master_get by done.
  rewrite call_master_up by done.
  rewrite (getChunks_get p file) by done.
  cbn [fst snd StatusCode RespBody Z.eqb negb StatusOK Pos.eqb].
  rewrite Hchunks. cbn [map]. rewrite Hc, Hs, Hhc.
  destruct (call_server_cases env s "/read"
    (Chunkserver.handleRead filepath_Join (http_Get "chunk" h))
    {| Client.coordinator := Client.coordinator w; Client.nodes := Client.nodes w |})
    as [(_ & n' & Hn' & ->) | (Hans & _)].
  - simpl in Hn'. rewrite Hn in Hn'. injection Hn' as <-.
    rewrite (handleRead_hit _ _ d) by done. simpl.
    rewrite insert_id; [by rewrite world_eta|]. rewrite Hn. by destruct n.
  - unfold answers in Hans. rewrite Hsup in Hans. simpl in Hans.
    apply bool_decide_eq_false_1 in Hans. destruct Hans. rewrite Hn. eauto.
Qed.


End FirstWriteWins.

Section CommandLine.

Variable filepath_Join : string → string → string.

(** A first write that succeeds, with the first registered server
    answering, makes the file readable as the data written. *)
Lemma first_write_readable env c filename data w primary rest n :
  Client.master_up env = true → url_safe filename = true → filename ≠ "" →
  chunkless (Client.coordinator w) filename →
  Master.servers (Client.coordinator w) = primary :: rest →
  Client.server_up env primary = true →
  Client.nodes w !! primary = Some n →
  (Client.writeFile filepath_Join env c filename data w).1.2 = None ∧
  readable_at (Client.writeFile filepath_Join env c filename data w).1.1
    filename (Master.chunkHandleOf (Master.nextChunk (Client.coordinator w)))
    primary data.
Proof.
  intros Hup Hsafe Hne Hless Hsrv Hsup Hn.
  pose proof (writeFile_served filepath_Join env c filename data w primary rest
                Hup Hsafe Hne Hsrv) as Hw.
  destruct (Client.writeFile _ _ _ _ _ _) as [[w' e] evs]. simpl in *.
  injection Hw as -> ->. split; [done|].
  assert (Hcounter : Master.nextChunk (created (Client.coordinator w) filename)
                     = Master.nextChunk (Client.coordinator w)).
  { unfold created. by destruct (Master.files _ !! filename). }
  assert (Hservers : take ReplicationFactor
                       (Master.servers (created (Client.coordinator w) filename))
                     = primary :: take 2 rest).
  { by rewrite created_servers, Hsrv. }
  assert (Hempty : Chunks (record_of (Client.coordinator w) filename) = []).
  { unfold record_of, chunkless in *.
    by destruct (Master.files (Client.coordinator w) !! filename). }
  unfold readable_at. rewrite writeReplicas_coordinator.
  unfold allocated_state, allocated_chunk.
  cbn [Client.coordinator Master.files Master.chunks Handle Servers].
  rewrite Hcounter, Hservers, Hempty.
  split_and!; [apply chunkHandleOf_nonempty | | |].
  - eexists _, _. rewrite lookup_insert_eq. split; [reflexivity|]. done.
  - eexists _, _. rewrite lookup_insert_eq. split_and!; reflexivity.
  - by apply (writeReplicas_first_holds filepath_Join env _ data primary _ _ n).
Qed.

(** X22.  From the command line: a client-mode write of non-empty data to
    a file without chunks whose name is made of URL-safe characters,
    with the coordinator and the first registered storage server
    answering, prints the success line, and a client-mode read of the
    same file right after prints exactly the data written. *)
Theorem cli_write_then_read port master filename content env w primary rest n :
  url_safe filename = true → filename ≠ "" → content ≠ "" →
  Client.master_up env = true →
  chunkless (Client.coordinator w) filename →
  Master.servers (Client.coordinator w) = primary :: rest →
  Client.server_up env primary = true →
  Client.nodes w !! primary = Some n →
  let flags op := {| Main.mode := "client"; Main.port := port;
                     Main.master := master; Main.operation := op;
                     Main.file := filename; Main.data := content |} in
  let written := Main.main filepath_Join (flags "write") env w in
  written.1.2 = Main.Printed ("Successfully wrote to " +:+ filename +:+ newline) ∧
  (Main.main filepath_Join (flags "read") env written.1.1).1.2
  = Main.Printed ("Content of " +:+ filename +:+ ": " +:+ content +:+ newline).
Proof.
  intros Hsafe Hf Hd Hup Hless Hsrv Hsup Hn flags written.
  subst written flags.
  unfold Main.main. cbn [Main.mode Main.operation Main.file Main.data
                         Main.master String.eqb Ascii.eqb Bool.eqb orb].
  simpl (String.eqb "client" _). simpl (String.eqb "write" _).
  simpl (String.eqb "read" _). cbv iota.
  rewrite !eqb_empty_false by done. cbn [orb].
  destruct (first_write_readable env (Client.NewClient master) filename content
              w primary rest n Hup Hsafe Hf Hless Hsrv Hsup Hn) as [Hok Hread].
  destruct (Client.writeFile filepath_Join env (Client.NewClient master)
              filename content w) as [[w' e] evs]. simpl in Hok, Hread. subst e.
  cbn [fst snd]. split; [done|].
  pose proof (readable_read filepath_Join env (Client.NewClient master) filename
                _ primary content w' Hsafe Hf Hup Hsup Hread) as Hr.
  destruct (Client.readFile filepath_Join env (Client.NewClient master)
              filename w') as [[w'' out] evs']. simpl in Hr.
  by injection Hr as -> ->.
Qed.

End CommandLine.

Lemma cli_write_then_read_witness :
  let flags op := {| Main.mode := "client"; Main.port := 8080;
                     Main.master := "localhost:8080"; Main.operation := op;
                     Main.file := "/hello.txt"; Main.data := "Hello GFS!" |} in
  let written := Main.main demo_join (flags "write") demo_env demo_world in
  written.1.2 = Main.Printed ("Successfully wrote to /hello.txt" +:+ newline) ∧
  (Main.main demo_join (flags "read") demo_env written.1.1).1.2
  = Main.Printed ("Content of /hello.txt: Hello GFS!" +:+ newline).
Proof.
  refine (cli_write_then_read demo_join 8080 "localhost:8080" "/hello.txt"
            "Hello GFS!" demo_env demo_world "localhost:8081"
            ["localhost:8082"; "localhost:8083"] (demo_node "localhost:8081")
            _ _ _ _ _ _ _ _).
  - reflexivity.
  - discriminate.
  - discriminate.
  - reflexivity.
  - vm_compute. exact I.
  - vm_compute. reflexivity.
  - reflexivity.
  - vm_compute. reflexivity.
Defined.


(** ** Where files come from *)

Lemma step_new_file op m p file :
  Master.files (Master.step op m).1.1 !! p = Some file →
  Master.files m !! p = None →
  ∃ r, op = Master.Create r ∧ Method r = "POST" ∧ Query_Get r "file" = p.
Proof.
  assert (Hsame : ∀ m', Master.files m' = Master.files m →
            Master.files m' !! p = Some file → Master.files m !! p = None →
            ∃ r, op = Master.Create r ∧ Method r = "POST"
                 ∧ Query_Get r "file" = p).
  { intros m' ->. congruence. }
  destruct op as [r|r|r|r now]; simpl.
  - unfold Master.handleRegisterServer.
    destruct (negb _); [by apply Hsame|].
    destruct (String.eqb _ _); [by apply Hsame|].
    destruct (Master.registered _ _); by apply Hsame.
  - unfold Master.handleCreateFile.
    destruct (String.eqb_spec (Method r) "POST") as [Hm|]; simpl;
      [|by apply Hsame].
    destruct (String.eqb _ _); [by apply Hsame|].
    destruct (Master.files m !! Query_Get r "file"); [by apply Hsame|].
    simpl. rewrite lookup_insert. case_decide; [|congruence].
    intros _ _. by exists r.
  - rewrite getChunks_state. by apply Hsame.
  - unfold Master.handleAllocateChunk.
    destruct (negb _); [by apply Hsame|].
    destruct (String.eqb _ _); [by apply Hsame|].
    destruct (Master.files m !! Query_Get r "file") eqn:Hf; [|by apply Hsame].
    destruct (Master.selectServers _ _); simpl; [by apply Hsame|].
    rewrite lookup_insert. case_decide; [subst|]; congruence.
Qed.

(** X23.  A file becomes known only through a POST to [/create] that names
    it: if a run of requests starts without the file and ends with it, the
    run contains such a request.  Allocations, registrations and lookups
    never make a name known. *)
Theorem files_come_from_create ops m p file :
  Master.files m !! p = None →
  Master.files (run_ops ops m) !! p = Some file →
  ∃ r, Master.Create r ∈ ops ∧ Method r = "POST" ∧ Query_Get r "file" = p.
Proof.
  intros Hnone. revert file.
  induction ops as [|op ops IH] using rev_ind; intros file Hsome.
  - simpl in Hsome. congruence.
  - rewrite run_ops_snoc in Hsome.
    destruct (Master.files (run_ops ops m) !! p) as [file0|] eqn:Hprev.
    + destruct (IH file0 eq_refl) as (r & Hin & Hr). exists r.
      split; [|done]. apply elem_of_app. by left.
    + destruct (step_new_file op _ p file Hsome Hprev) as (r & -> & Hr).
      exists r. split; [|done]. apply elem_of_app. right. by left.
Qed.

Lemma files_come_from_create_witness :
  ∃ r, Master.Create r
       ∈ [Master.Register (http_Post "server" "localhost:8081" "");
          Master.Create (http_Post "file" "/hello.txt" "")] ∧
       Method r = "POST" ∧ Query_Get r "file" = "/hello.txt".
Proof.
  apply (files_come_from_create _ (Master.NewMaster 8080) "/hello.txt"
           (mkFileInfo "/hello.txt" [] 0)); vm_compute; reflexivity.
Defined.

Section ClientErrors.

Variable filepath_Join : string → string → string.

(** X24.  Reading a file the coordinator does not know, under a name
    made of URL-safe characters, fails with the coordinator's 404 as
    error, returns empty content, contacts no storage server and changes
    nothing. *)
Theorem read_of_unknown_file env c filename w :
  Client.master_up env = true → url_safe filename = true → filename ≠ "" →
  Master.files (Client.coordinator w) !! filename = None →
  Client.readFile filepath_Join env c filename w
  = (w,
     Client.Returned ""
       (Some (Client.Errorf "failed to get chunks with status 404")),
     [Client.Call (Client.master c) "/chunks"]).
Proof.
  intros Hup Hsafe Hne Hnone. unfold Client.readFile.
  rewrite ask_master_get by done.
  rewrite call_master_up by done.
  unfold Master.handleGetChunks. run_handler. rewrite Hnone. simpl.
  by rewrite world_eta.
Qed.




(** X26.  [readFile] does not look at the status of the storage server's
    answer.  If the first replica of the file's first chunk answers but
    has the chunk neither in memory nor on disk, the read returns the text
    of the 404 as the file's content, with no error.  The file name and
    the handle are made of URL-safe characters, as every handle the
    coordinator hands out is. *)
Theorem read_of_missing_chunk env c filename w file h rest chunk s more n :
  Client.master_up env = true → url_safe filename = true → filename ≠ "" →
  Master.files (Client.coordinator w) !! filename = Some file →
  Chunks file = h :: rest →
  Master.chunks (Client.coordinator w) !! h = Some chunk →
  url_safe (Handle chunk) = true → Handle chunk ≠ "" →
  Servers chunk = s :: more →
  Client.server_up env s = true →
  Client.nodes w !! s = Some n →
  Chunkserver.chunks (Client.server n) !! Handle chunk = None →
  Client.disk n
    !! filepath_Join (Chunkserver.dataDir (Client.server n)) (Handle chunk)
  = None →
  (Client.readFile filepath_Join env c filename w).1
  = (w, Client.Returned ("Chunk not found" +:+ newline) None).
Proof.
  intros Hup Hsafe Hne Hf Hchunks Hc Hsafeh Hh Hs Hsup Hn Hmem Hdisk.
  unfold Client.readFile. rewrite ask_master_get by done.
  rewrite call_master_up by done.
  rewrite (getChunks_get filename file) by done.
  cbn [fst snd StatusCode RespBody Z.eqb negb StatusOK Pos.eqb].
  rewrite Hchunks. cbn [map]. rewrite Hc, Hs.
  destruct (call_server_cases env s "/read"
    (Chunkserver.handleRead filepath_Join (http_Get "chunk" (Handle chunk)))
    {| Client.coordinator := Client.coordinator w; Client.nodes := Client.nodes w |})
    as [(_ & n' & Hn' & ->) | (Hans & _)].
  - simpl in Hn'. rewrite Hn in Hn'. injection Hn' as <-.
    unfold Chunkserver.handleRead. run_handler. rewrite Hmem, Hdisk. simpl.
    rewrite insert_id; [by rewrite world_eta|]. rewrite Hn. by destruct n.
  - unfold answers in Hans. rewrite Hsup in Hans. simpl in Hans.
    apply bool_decide_eq_false_1 in Hans. destruct Hans. rewrite Hn. eauto.
Qed.

End ClientErrors.

Lemma read_of_unknown_file_witness :
  Client.readFile demo_join demo_env demo_client "/missing.txt" demo_world
  = (demo_world,
     Client.Returned ""
       (Some (Client.Errorf "failed to get chunks with status 404")),
     [Client.Call "localhost:8080" "/chunks"]).
Proof.
  apply (read_of_unknown_file demo_join demo_env demo_client "/missing.txt"
           demo_world); [reflexivity | reflexivity | discriminate | by vm_compute].
Defined.


Lemma read_of_missing_chunk_witness :
  let down_primary :=
    {| Client.master_up := true;
       Client.server_up := λ addr, negb (String.eqb addr "localhost:8081");
       Client.disk_write := λ _, Chunkserver.WriteOK; Client.now := 0 |} in
  let w := (Client.writeFile demo_join down_primary demo_client
              "/hello.txt" "Hello" demo_world).1.1 in
  (Client.readFile demo_join demo_env demo_client "/hello.txt" w).1
  = (w, Client.Returned ("Chunk not found" +:+ newline) None).
Proof.
  intros down_primary w.
  refine (read_of_missing_chunk demo_join demo_env demo_client "/hello.txt" w
            (mkFileInfo "/hello.txt" ["chunk_1"] 0) "chunk_1" []
            {| Handle := "chunk_1"; Servers := demo_servers; Version := 1;
               Size := 0; Primary := "localhost:8081"; LeaseEnd := 60 * Second |}
            "localhost:8081" ["localhost:8082"; "localhost:8083"]
            (demo_node "localhost:8081") _ _ _ _ _ _ _ _ _ _ _ _ _);
    try reflexivity; try discriminate; by vm_compute.
Defined.

(** ** More on concurrent requests *)

Section ConcurrentMore.

Variable filepath_Join : string → string → string.

Import Concurrent.

Lemma occupancy_positive f (ts : list pc) :
  (0 < occupancy f ts)%nat → ∃ i p, ts !! i = Some p ∧ f p = true.
Proof.
  unfold occupancy. induction ts as [|t ts IH]; simpl;
    [intros H; exfalso; lia|].
  destruct (f t) eqn:Hf.
  - intros _. by exists 0%nat, t.
  - intros Hpos. destruct (IH Hpos) as (i & p & Hi & Hp). by exists (S i), p.
Qed.

Lemma occupancy_two f (ts : list pc) i j pi pj q :
  f q = false →
  i ≠ j → ts !! i = Some pi → ts !! j = Some pj →
  f pi = true → f pj = true → (2 ≤ occupancy f ts)%nat.
Proof.
  intros Hq Hij Hi Hj Hfi Hfj.
  pose proof (occupancy_insert f ts i pi q Hi) as Hdrop.
  assert (Hj' : <[i := q]> ts !! j = Some pj)
    by by rewrite list_lookup_insert_ne.
  pose proof (occupancy_member f _ j pj Hj' Hfj).
  rewrite Hfi, Hq in Hdrop. simpl in Hdrop. lia.
Qed.

(** X27.  However requests are scheduled, two store requests are never
    both between their [Lock] and their [Unlock]. *)
Theorem stores_exclude_each_other c i j pi pj :
  reachable filepath_Join c →
  i ≠ j → c.2 !! i = Some pi → c.2 !! j = Some pj →
  in_store_section pi && in_store_section pj = false.
Proof.
  intros Hreach Hij Hi Hj.
  destruct (reachable_lock_discipline filepath_Join c Hreach) as (Hw & _ & _).
  destruct (in_store_section pi) eqn:Hpi, (in_store_section pj) eqn:Hpj; try done.
  pose proof (occupancy_two in_store_section c.2 i j pi pj
                (Finished (mkResponse 0 "")) eq_refl Hij Hi Hj Hpi Hpj).
  destruct (writer (mu c.1)); lia.
Qed.

Lemma schedule_in_section c i p :
  c.2 !! i = Some p →
  in_store_section p || in_retrieve_section p = true →
  ∃ c', schedule filepath_Join i c = Some c'.
Proof.
  intros Hi Hin. unfold schedule. rewrite Hi.
  destruct p; try discriminate; simpl; eauto.
  - destruct (Chunkserver.chunks (server c.1) !! handle); eauto.
  - destruct (disk c.1 !! _); eauto.
Qed.

Lemma runs_reachable c0 c :
  initial c0 → runs_to filepath_Join c0 c → reachable filepath_Join c.
Proof.
  intros Hinit Hrun. apply (reachable_initial filepath_Join) in Hinit.
  induction Hrun as [c|c1 c2 c3 Hstep _ IH]; [done|].
  apply IH. by apply (reachable_step filepath_Join c1).
Qed.

(** X28.  The mutex never leaves requests stuck.  Take a run of requests
    on one storage server, at most one of them a retrieve (two retrieves
    can hold the read lock together, and what their map accesses do to
    each other is not the mutex's doing).  In every configuration the
    run comes to with an unanswered request, some thread can take a
    step. *)
Theorem requests_never_deadlock c0 c i p :
  initial c0 → (retrieves c0.2 ≤ 1)%nat →
  runs_to filepath_Join c0 c →
  c.2 !! i = Some p → finished p = false →
  ∃ k c', schedule filepath_Join k c = Some c'.
Proof.
  intros Hinit _ Hrun Hi Hp.
  pose proof (runs_reachable c0 c Hinit Hrun) as Hreach.
  destruct (reachable_lock_discipline filepath_Join c Hreach) as (Hw & Hr & _).
  destruct (in_store_section p || in_retrieve_section p) eqn:Hin.
  { destruct (schedule_in_section c i p Hi Hin) as [c' Hc']. eauto. }
  destruct (writer (mu c.1)) eqn:Hwriter.
  { destruct (occupancy_positive in_store_section c.2) as (k & q & Hk & Hq); [lia|].
    destruct (schedule_in_section c k q Hk) as [c' Hc']; [by rewrite Hq|]. eauto. }
  destruct (readers (mu c.1)) as [|r] eqn:Hreaders.
  - exists i. unfold schedule. rewrite Hi.
    destruct p; try discriminate; simpl; rewrite Hwriter, ?Hreaders; simpl; eauto.
  - destruct (occupancy_positive in_retrieve_section c.2) as (k & q & Hk & Hq);
      [lia|].
    destruct (schedule_in_section c k q Hk) as [c' Hc'];
      [by rewrite Hq, orb_true_r|]. eauto.
Qed.

End ConcurrentMore.

Lemma stores_exclude_each_other_witness :
  Concurrent.in_store_section
    (Concurrent.WriteCache "chunk_1" "Hello" Chunkserver.WriteOK)
  && Concurrent.in_store_section
       (Concurrent.WriteLock "chunk_1" "World" Chunkserver.WriteOK)
  = false.
Proof.
  refine (stores_exclude_each_other demo_join
            (Concurrent.mkShared (Concurrent.mkRWMutex true 0)
               (Chunkserver.NewChunkserver "localhost:8081" "localhost:8080") ∅,
             [Concurrent.WriteCache "chunk_1" "Hello" Chunkserver.WriteOK;
              Concurrent.WriteLock "chunk_1" "World" Chunkserver.WriteOK])
            0 1 _ _ _ _ _ _).
  - eapply Concurrent.reachable_step.
    + apply (Concurrent.reachable_initial demo_join
               (Concurrent.mkShared (Concurrent.mkRWMutex false 0)
                  (Chunkserver.NewChunkserver "localhost:8081" "localhost:8080") ∅,
                [Concurrent.WriteLock "chunk_1" "Hello" Chunkserver.WriteOK;
                 Concurrent.WriteLock "chunk_1" "World" Chunkserver.WriteOK])).
      split; [reflexivity | repeat constructor].
    + by apply (Concurrent.step_thread demo_join 0%nat).
  - lia.
  - reflexivity.
  - reflexivity.
Defined.

Lemma requests_never_deadlock_witness :
  ∃ k c',
    Concurrent.schedule demo_join k
      (Concurrent.mkShared (Concurrent.mkRWMutex true 0)
         (Chunkserver.NewChunkserver "localhost:8081" "localhost:8080") ∅,
       [Concurrent.WriteCache "chunk_1" "Hello" Chunkserver.WriteOK;
        Concurrent.ReadRLock "chunk_1"])
    = Some c'.
Proof.
  apply (requests_never_deadlock demo_join
           (Concurrent.mkShared (Concurrent.mkRWMutex false 0)
              (Chunkserver.NewChunkserver "localhost:8081" "localhost:8080") ∅,
            [Concurrent.WriteLock "chunk_1" "Hello" Chunkserver.WriteOK;
             Concurrent.ReadRLock "chunk_1"])
           _ 1 (Concurrent.ReadRLock "chunk_1")).
  - split; [reflexivity | repeat constructor].
  - vm_compute. lia.
  - apply rtc_once. by apply (Concurrent.step_thread demo_join 0%nat).
  - reflexivity.
  - reflexivity.
Defined.
